(** * binance.subscribe: the duplex stream client and the event dispatcher

    A shallow embedding of [binance/subscribe/stream.py] (class [Stream]) and
    of [binance/subscribe/processors.py] ([ProcessorBase.dispatch]), with the
    properties of request/response correlation, connection life cycle and
    event fan-out that the specification states about them.

    Python objects that are shared and mutated (futures, tasks, the dicts
    passed to [send]) live in an explicit store, the [Loop]; the [Stream]
    record holds references into it, as the attributes of [self] do. *)

From Stdlib Require Import Ascii.
From stdpp Require Import gmap strings list fin_maps sorting.

#[local] Set Warnings "-register-all".

(** ** JSON values, as [json.loads] produces them

    Numbers are the integers; non-integral numbers are left out (a float never
    equals a request id unless it is integral, and then it behaves as the
    integer does). *)

Inductive json :=
| JNull
| JBool (b : bool)
| JInt (n : Z)
| JStr (s : string)
| JArr (l : list json)
| JObj (d : gmap string json).

Abbreviation dict := (gmap string json).

Abbreviation socket := nat.
Abbreviation fut := nat.
Abbreviation task_id := nat.
Abbreviation dref := nat.

Inductive exn :=
| StreamDisconnectedException (uri : string)
| StreamSubscribeException (code message : json)
| KeyError (k : string)
| TypeError
| InvalidStateError
| ConnectionClosed.

(** Results of code that may raise. A [Raise] leaves the state as it was
    when the exception left the function. *)
Inductive res (A : Type) :=
| Ok (a : A)
| Raise (e : exn).
Arguments Ok {A} a.
Arguments Raise {A} e.

#[global] Instance res_ret : MRet res := fun A a => Ok a.
#[global] Instance res_bind : MBind res := fun A B k r =>
  match r with
  | Ok a => k a
  | Raise e => Raise e
  end.

(** ** The event loop: futures, tasks, caller-owned dicts *)

Inductive pyval :=
| VJson (v : json)
| VSocket (sock : socket).

Inductive fstate :=
| Pending
| Done (v : pyval)
| Failed (e : exn).

Inductive task_kind :=
| TConnect
| TEmitConnected
| TSocketClose (sock : socket) (code : Z).

Record task := { t_kind : task_kind; t_cancel : bool }.

Record Loop := {
  futures : list fstate;
  tasks : list task;
  dicts : list dict;
  delivered : list json;
  socket_sends : list (socket * dict)
}.

(** [delivered] lists the arguments of the calls of the [on_message]
    callback, [socket_sends] the frames handed to [socket.send]. *)

Definition with_futures (v : list fstate) (l : Loop) : Loop :=
  {| futures := v; tasks := tasks l; dicts := dicts l;
     delivered := delivered l; socket_sends := socket_sends l |}.
Definition with_tasks (v : list task) (l : Loop) : Loop :=
  {| futures := futures l; tasks := v; dicts := dicts l;
     delivered := delivered l; socket_sends := socket_sends l |}.
Definition with_dicts (v : list dict) (l : Loop) : Loop :=
  {| futures := futures l; tasks := tasks l; dicts := v;
     delivered := delivered l; socket_sends := socket_sends l |}.
Definition with_delivered (v : list json) (l : Loop) : Loop :=
  {| futures := futures l; tasks := tasks l; dicts := dicts l;
     delivered := v; socket_sends := socket_sends l |}.
Definition with_socket_sends (v : list (socket * dict)) (l : Loop) : Loop :=
  {| futures := futures l; tasks := tasks l; dicts := dicts l;
     delivered := delivered l; socket_sends := v |}.

(** [create_future()]: a new future, pending. *)
Definition create_future (l : Loop) : Loop * fut :=
  (with_futures (futures l ++ [Pending]) l, length (futures l)).

(** [asyncio.create_task(coro)]: a new task, scheduled. *)
Definition create_task (k : task_kind) (l : Loop) : Loop * task_id :=
  (with_tasks (tasks l ++ [{| t_kind := k; t_cancel := false |}]) l,
   length (tasks l)).

(** [task.cancel()]: requests the cancellation of the task. *)
Definition cancel (t : task_id) (l : Loop) : Loop :=
  with_tasks
    (alter (fun x => {| t_kind := t_kind x; t_cancel := true |}) t (tasks l))
    l.

(** [future.set_result(v)] and [future.set_exception(e)] raise
    [InvalidStateError] on a future that is already done. *)
Definition resolve (f : fut) (x : fstate) (l : Loop) : res Loop :=
  match futures l !! f with
  | Some Pending => Ok (with_futures (<[f := x]> (futures l)) l)
  | _ => Raise InvalidStateError
  end.

Definition set_result (f : fut) (v : pyval) : Loop → res Loop :=
  resolve f (Done v).
Definition set_exception (f : fut) (e : exn) : Loop → res Loop :=
  resolve f (Failed e).

(** ** The Stream object *)

Record Stream := {
  _uri : string;
  _socket : option socket;
  _conn_task : option task_id;
  _connected_task : option task_id;
  _message_id : Z;
  _message_futures : gmap Z fut;
  _open_future : option fut;
  _closing : bool
}.

Record State := { self : Stream; loop : Loop }.

Definition with_socket (v : option socket) (s : Stream) : Stream :=
  {| _uri := _uri s; _socket := v; _conn_task := _conn_task s;
     _connected_task := _connected_task s; _message_id := _message_id s;
     _message_futures := _message_futures s; _open_future := _open_future s;
     _closing := _closing s |}.
Definition with_conn_task (v : option task_id) (s : Stream) : Stream :=
  {| _uri := _uri s; _socket := _socket s; _conn_task := v;
     _connected_task := _connected_task s; _message_id := _message_id s;
     _message_futures := _message_futures s; _open_future := _open_future s;
     _closing := _closing s |}.
Definition with_connected_task (v : option task_id) (s : Stream) : Stream :=
  {| _uri := _uri s; _socket := _socket s; _conn_task := _conn_task s;
     _connected_task := v; _message_id := _message_id s;
     _message_futures := _message_futures s; _open_future := _open_future s;
     _closing := _closing s |}.
Definition with_message_id (v : Z) (s : Stream) : Stream :=
  {| _uri := _uri s; _socket := _socket s; _conn_task := _conn_task s;
     _connected_task := _connected_task s; _message_id := v;
     _message_futures := _message_futures s; _open_future := _open_future s;
     _closing := _closing s |}.
Definition with_message_futures (v : gmap Z fut) (s : Stream) : Stream :=
  {| _uri := _uri s; _socket := _socket s; _conn_task := _conn_task s;
     _connected_task := _connected_task s; _message_id := _message_id s;
     _message_futures := v; _open_future := _open_future s;
     _closing := _closing s |}.
Definition with_open_future (v : option fut) (s : Stream) : Stream :=
  {| _uri := _uri s; _socket := _socket s; _conn_task := _conn_task s;
     _connected_task := _connected_task s; _message_id := _message_id s;
     _message_futures := _message_futures s; _open_future := v;
     _closing := _closing s |}.
Definition with_closing (v : bool) (s : Stream) : Stream :=
  {| _uri := _uri s; _socket := _socket s; _conn_task := _conn_task s;
     _connected_task := _connected_task s; _message_id := _message_id s;
     _message_futures := _message_futures s; _open_future := _open_future s;
     _closing := v |}.

(** Modelled from the spec: the keys of [binance.common.constants], which is
    not among the sources: the frames of the external interface are
    [{"id": .., "result": ..}] and
    [{"id": .., "error": {"code": .., "msg": ..}}]. *)
Definition STREAM_KEY_ID : string := "id".
Definition STREAM_KEY_RESULT : string := "result".
Definition STREAM_KEY_ERROR : string := "error".
Definition ERROR_KEY_CODE : string := "code".
Definition ERROR_KEY_MESSAGE : string := "msg".

(** [Stream.__init__]; [loop0] is the loop the stream is created in. *)
Definition init (uri : string) : Stream :=
  {| _uri := uri; _socket := None; _conn_task := None;
     _connected_task := None; _message_id := 0;
     _message_futures := ∅; _open_future := None; _closing := false |}.

Definition loop0 (ds : list dict) : Loop :=
  {| futures := []; tasks := []; dicts := ds; delivered := [];
     socket_sends := [] |}.

Definition new_stream (uri : string) (ds : list dict) : State :=
  {| self := init uri; loop := loop0 ds |}.

(** ** Frames and the pending table *)

(** [key in self._message_futures]: the table is keyed by the integers that
    [send] assigns. A key is looked up by hash and equality, so [True] and
    [False] are the keys [1] and [0], [None] and strings are keys that are
    never present, and a list or a dict is unhashable. *)
Definition table_key (v : json) : res (option Z) :=
  match v with
  | JInt n => Ok (Some n)
  | JBool b => Ok (Some (if b then 1 else 0)%Z)
  | JNull | JStr _ => Ok None
  | JArr _ | JObj _ => Raise TypeError
  end.

(** [v[k]] on a decoded JSON value, [k] a string. *)
Definition subscript (v : json) (k : string) : res json :=
  match v with
  | JObj d =>
      match d !! k with
      | Some x => Ok x
      | None => Raise (KeyError k)
      end
  | _ => Raise TypeError
  end.

Definition is_str (k : string) (v : json) : bool :=
  match v with
  | JStr s => bool_decide (s = k)
  | _ => false
  end.

Fixpoint substring_of (k s : string) : bool :=
  String.prefix k s ||
  match s with
  | EmptyString => false
  | String _ s' => substring_of k s'
  end.

(** [k in msg] for a decoded JSON value: key membership on a dict, element
    membership on a list, substring test on a string, [TypeError] on the
    values that are not containers. *)
Definition contains (msg : json) (k : string) : res bool :=
  match msg with
  | JObj d => Ok (bool_decide (is_Some (d !! k)))
  | JArr l => Ok (existsb (is_str k) l)
  | JStr s => Ok (substring_of k s)
  | JNull | JBool _ | JInt _ => Raise TypeError
  end.

(** [self._emit(ON_MESSAGE, msg)]: the wrapped [on_message] callback is
    called with the frame. *)
Definition _emit_on_message (msg : json) (st : State) : State :=
  {| self := self st;
     loop := with_delivered (delivered (loop st) ++ [msg]) (loop st) |}.

(** The two branches of [_handle_message] that touch the future. Every
    argument of [set_exception] is evaluated before the call. *)
Definition settle (msg : json) (future : fut) (l : Loop) : res Loop :=
  has_result ← contains msg STREAM_KEY_RESULT ;
  if (has_result : bool) then
    v ← subscript msg STREAM_KEY_RESULT ;
    set_result future (VJson v) l
  else
    has_error ← contains msg STREAM_KEY_ERROR ;
    if (has_error : bool) then
      error ← subscript msg STREAM_KEY_ERROR ;
      code ← subscript error ERROR_KEY_CODE ;
      message ← subscript error ERROR_KEY_MESSAGE ;
      set_exception future (StreamSubscribeException code message) l
    else Ok l.

(** [Stream._handle_message] *)
Definition _handle_message (msg : json) (st : State) : res State :=
  has_id ← contains msg STREAM_KEY_ID ;
  if negb has_id then Ok (_emit_on_message msg st)
  else
    idv ← subscript msg STREAM_KEY_ID ;
    key ← table_key idv ;
    match key ≫= fun k =>
            option_map (pair k) (_message_futures (self st) !! k) with
    | None => Ok (_emit_on_message msg st)
    | Some (message_id, future) =>
        l ← settle msg future (loop st) ;
        Ok {| self := with_message_futures
                        (delete message_id (_message_futures (self st)))
                        (self st);
              loop := l |}
    end.

(** ** Connecting *)

(** [Stream._before_connect] *)
Definition _before_connect (st : State) : State :=
  let '(l, f) := create_future (loop st) in
  {| self := with_open_future (Some f) (self st); loop := l |}.

(** [Stream.connect]: synchronous, returns [self]. *)
Definition connect (st : State) : State :=
  let st1 := _before_connect st in
  let '(l, t) := create_task TConnect (loop st1) in
  {| self := with_conn_task (Some t) (self st1); loop := l |}.

(** [Stream._set_socket] *)
Definition _set_socket (sock : socket) (st : State) : res State :=
  st1 ← match _open_future (self st) with
        | Some f =>
            l ← set_result f (VSocket sock) (loop st) ;
            Ok {| self := with_open_future None (self st); loop := l |}
        | None => Ok st
        end ;
  Ok {| self := with_socket (Some sock) (self st1); loop := loop st1 |}.

(** The head of the body of [Stream._connect], run when the socket [sock]
    has been opened: the socket is published and the [on_connected] callback
    started as a task. *)
Definition _connect_opened (sock : socket) (st : State) : res State :=
  st1 ← _set_socket sock st ;
  let '(l, t) := create_task TEmitConnected (loop st1) in
  Ok {| self := with_connected_task (Some t) (self st1); loop := l |}.

(** [Stream._reconnect], the hook run before a retry; the error raised by
    the awaited cancelled task is swallowed. *)
Definition _reconnect (st : State) : State :=
  let st1 :=
    match _connected_task (self st) with
    | Some t =>
        {| self := with_connected_task None (self st);
           loop := cancel t (loop st) |}
    | None => st
    end in
  _before_connect st1.

(** ** Closing

    [close] suspends once, to await the cancelled connection task and the
    closing of the socket: [close_begin] is the code before the suspension,
    [close_end] the code after it. *)
Definition close_begin (code : Z) (st : State) : res State :=
  match _conn_task (self st) with
  | None => Raise (StreamDisconnectedException (_uri (self st)))
  | Some conn_task =>
      let l1 :=
        match _socket (self st) with
        | Some sock => fst (create_task (TSocketClose sock code) (loop st))
        | None => loop st
        end in
      Ok {| self := with_closing true (self st);
            loop := cancel conn_task l1 |}
  end.

Definition close_end (st : State) : State :=
  {| self := with_closing false (with_socket None (self st));
     loop := loop st |}.

(** [Stream.close], run to completion. *)
Definition close (code : Z) (st : State) : res State :=
  st1 ← close_begin code st ;
  Ok (close_end st1).

(** ** Sending

    [send] suspends at [await self._open_future] (no socket yet), at
    [await socket.send(..)] and at [await future]. The statements between two
    suspensions run without interleaving. [wr] is what the call of
    [socket.send] does: [None] when it returns, [Some e] when it raises [e]
    (a closed socket raises [ConnectionClosed]). *)

Inductive send_outcome :=
| NotSent (e : exn)
| AwaitOpen (f : fut)
| WriteFailed (message_id : Z) (future : fut) (e : exn)
| AwaitReply (message_id : Z) (future : fut).

(** What [send] has raised to its caller, if it has. *)
Definition raised_to_caller (o : send_outcome) : option exn :=
  match o with
  | NotSent e | WriteFailed _ _ e => Some e
  | AwaitOpen _ | AwaitReply _ _ => None
  end.

(** The id stamped on the request, if the call got that far. *)
Definition stamped_id (o : send_outcome) : option Z :=
  match o with
  | WriteFailed i _ _ | AwaitReply i _ => Some i
  | NotSent _ | AwaitOpen _ => None
  end.

(** From [future = create_future()] to the call of [socket.send]; [msg] is
    the caller's dict, [json_stringify(msg)] reads it after the id is
    written into it. *)
Definition send_stamp (msg : dref) (sock : socket) (wr : option exn)
    (st : State) : State * send_outcome :=
  let '(l1, future) := create_future (loop st) in
  let message_id := _message_id (self st) in
  let s1 := with_message_id (message_id + 1) (self st) in
  let l2 := with_dicts
              (alter (insert STREAM_KEY_ID (JInt message_id)) msg (dicts l1))
              l1 in
  let s2 := with_message_futures
              (<[message_id := future]> (_message_futures s1)) s1 in
  let frame := default ∅ (dicts l2 !! msg) in
  let l3 := with_socket_sends (socket_sends l2 ++ [(sock, frame)]) l2 in
  ({| self := s2; loop := l3 |},
   match wr with
   | None => AwaitReply message_id future
   | Some e => WriteFailed message_id future e
   end).

(** [Stream.send], up to its first suspension or exception. *)
Definition send (msg : dref) (wr : option exn) (st : State)
    : State * send_outcome :=
  match _socket (self st) with
  | Some sock => send_stamp msg sock wr st
  | None =>
      match _open_future (self st) with
      | Some f => (st, AwaitOpen f)
      | None => (st, NotSent (StreamDisconnectedException (_uri (self st))))
      end
  end.

(** A [send] suspended at [await self._open_future], woken up. *)
Definition send_resume (f : fut) (msg : dref) (wr : option exn) (st : State)
    : State * send_outcome :=
  match futures (loop st) !! f with
  | Some (Done (VSocket sock)) => send_stamp msg sock wr st
  | Some (Failed e) => (st, NotSent e)
  | _ => (st, AwaitOpen f)
  end.

(** ** Runs of a stream

    The pieces of code that run without suspension, as operations scheduled in
    any order. An operation that raises leaves the state as it is at the
    [raise]. *)

Inductive op :=
| Connect
| Opened (sock : socket)
| Frame (msg : json)
| Reconnect
| Send (msg : dref) (wr : option exn)
| SendResume (f : fut) (msg : dref) (wr : option exn)
| CloseBegin (code : Z)
| CloseEnd.

Definition keep (st : State) (r : res State) : State :=
  match r with
  | Ok st' => st'
  | Raise _ => st
  end.

Definition exec (o : op) (st : State) : State :=
  match o with
  | Connect => connect st
  | Opened sock => keep st (_connect_opened sock st)
  | Frame msg => keep st (_handle_message msg st)
  | Reconnect => _reconnect st
  | Send msg wr => fst (send msg wr st)
  | SendResume f msg wr => fst (send_resume f msg wr st)
  | CloseBegin code => keep st (close_begin code st)
  | CloseEnd => close_end st
  end.

Fixpoint run (ops : list op) (st : State) : State :=
  match ops with
  | [] => st
  | o :: ops' => run ops' (exec o st)
  end.

(** The ids that the sends of a run stamp, in the order of the run. *)
Definition stamps (o : op) (st : State) : option Z :=
  match o with
  | Send msg wr => stamped_id (snd (send msg wr st))
  | SendResume f msg wr => stamped_id (snd (send_resume f msg wr st))
  | _ => None
  end.

Fixpoint ids_assigned (ops : list op) (st : State) : list Z :=
  match ops with
  | [] => []
  | o :: ops' =>
      match stamps o st with
      | Some i => i :: ids_assigned ops' (exec o st)
      | None => ids_assigned ops' (exec o st)
      end
  end.

(** The code of the connection task ([_connect], [_receive],
    [_handle_message], [_reconnect]) runs only in a task that [connect] has
    created, and the tail of [close] only after its guard has passed. *)
Definition enabled (o : op) (st : State) : bool :=
  match o with
  | Opened _ | Frame _ | Reconnect | CloseEnd =>
      bool_decide (is_Some (_conn_task (self st)))
  | Connect | Send _ _ | SendResume _ _ _ | CloseBegin _ => true
  end.

Inductive reachable : State → Prop :=
| reach_new uri ds : reachable (new_stream uri ds)
| reach_step o st :
    reachable st → enabled o st = true → reachable (exec o st).

(** A run whose operations are all enabled when their turn comes. *)
Fixpoint admissible (ops : list op) (st : State) : bool :=
  match ops with
  | [] => true
  | o :: ops' => enabled o st && admissible ops' (exec o st)
  end.

Definition is_connect (o : op) : bool :=
  match o with
  | Connect => true
  | _ => false
  end.

(** ** The dispatcher ([ProcessorBase.dispatch])

    A handler is its [receive] method: whether it is a coroutine function, and
    what its body does on a payload ([None]: it returns, [Some e]: it raises
    [e]). [handlers] is [self._handlers] in the order in which the [for] loop
    iterates over the set. *)

Record handler := {
  h_id : nat;
  h_coroutine : bool;
  h_receive : json → option exn
}.

(** The [for] loop: [coro] collects the coroutine objects (calling a coroutine
    function does not run its body), [ran] the handlers whose body has run. *)
Fixpoint dispatch_loop (handlers : list handler) (payload : json)
    (coro : list handler) (ran : list nat) : list nat * res (list handler) :=
  match handlers with
  | [] => (ran, Ok coro)
  | h :: rest =>
      if h_coroutine h then dispatch_loop rest payload (coro ++ [h]) ran
      else
        match h_receive h payload with
        | None => dispatch_loop rest payload coro (ran ++ [h_id h])
        | Some e => (ran ++ [h_id h], Raise e)
        end
  end.

(** [await asyncio.gather] on the collected coroutines: every coroutine is
    started; the first exception (here: of the first coroutine that raises)
    is raised to the awaiting caller, the other coroutines are not
    cancelled. *)
Definition gather (coro : list handler) (payload : json) (ran : list nat)
    : list nat * option exn :=
  (ran ++ map h_id coro, head (omap (fun h => h_receive h payload) coro)).

(** [dispatch]: the handlers whose body has run, and the exception raised to
    the caller, if any. *)
Definition dispatch (handlers : list handler) (payload : json)
    : list nat * option exn :=
  match dispatch_loop handlers payload [] [] with
  | (ran, Raise e) => (ran, Some e)
  | (ran, Ok coro) =>
      if bool_decide (0 < length coro) then gather coro payload ran
      else (ran, None)
  end.

(** The handlers that are plain functions, and those that are coroutine
    functions. *)
Definition is_sync (h : handler) : Prop := h_coroutine h = false.
Definition is_async (h : handler) : Prop := h_coroutine h = true.

#[global] Instance is_sync_dec h : Decision (is_sync h).
Proof. unfold is_sync. apply _. Defined.
#[global] Instance is_async_dec h : Decision (is_async h).
Proof. unfold is_async. apply _. Defined.

(** The synchronous handlers of [hs] return on the payload. *)
Definition sync_return (payload : json) (hs : list handler) : Prop :=
  ∀ h, h ∈ hs → is_sync h → h_receive h payload = None.

(** ** Reading frames

    What a frame says, read off the frame alone: the table key its [id]
    denotes, and what it holds for the caller that waits under that key.
    [reply_of msg = Some Pending] is a frame with neither a result nor an
    error; [None] is a frame whose error object lacks the code or the
    message. [frame_id_spec] and [handle_message_matched] below show that
    this is how [_handle_message] reads a frame. *)

Definition frame_id (msg : json) : option Z :=
  match msg with
  | JObj d =>
      match d !! STREAM_KEY_ID with
      | Some (JInt n) => Some n
      | Some (JBool b) => Some (if b then 1 else 0)%Z
      | _ => None
      end
  | _ => None
  end.

Definition reply_of (msg : json) : option fstate :=
  match msg with
  | JObj d =>
      match d !! STREAM_KEY_RESULT with
      | Some v => Some (Done (VJson v))
      | None =>
          match d !! STREAM_KEY_ERROR with
          | Some (JObj e) =>
              match e !! ERROR_KEY_CODE, e !! ERROR_KEY_MESSAGE with
              | Some c, Some m => Some (Failed (StreamSubscribeException c m))
              | _, _ => None
              end
          | Some _ => None
          | None => Some Pending
          end
      end
  | _ => None
  end.

(** The first frame of a run that carries the id [i] and that the handler
    processes to its end decides what the caller waiting under [i] gets. *)
Fixpoint first_reply (i : Z) (ops : list op) : fstate :=
  match ops with
  | [] => Pending
  | Frame msg :: ops' =>
      if bool_decide (frame_id msg = Some i) then
        match reply_of msg with
        | Some x => x
        | None => first_reply i ops'
        end
      else first_reply i ops'
  | _ :: ops' => first_reply i ops'
  end.

(** ** The invariant of the pending table *)

Record wf (st : State) : Prop := {
  wf_ids : ∀ i f,
    _message_futures (self st) !! i = Some f → (i < _message_id (self st))%Z;
  wf_pending : ∀ i f,
    _message_futures (self st) !! i = Some f →
    futures (loop st) !! f = Some Pending;
  wf_inj : ∀ i j f,
    _message_futures (self st) !! i = Some f →
    _message_futures (self st) !! j = Some f → i = j;
  wf_open : ∀ f,
    _open_future (self st) = Some f →
    futures (loop st) !! f = Some Pending ∧
    ∀ i, _message_futures (self st) !! i ≠ Some f
}.

(** The call of [send] has stamped its request and waits for the reply,
    either directly or after it has waited for the socket to open. *)
Definition awaits_reply (st : State) (msg : dref) (st1 : State)
    (i : Z) (f : fut) : Prop :=
  send msg None st = (st1, AwaitReply i f) ∨
  ∃ g, send_resume g msg None st = (st1, AwaitReply i f).

(** ** What one operation can change

    Ids and futures are only ever added; the only futures an operation
    settles are the ones the pending table or the open gate holds; the only
    entry an operation removes is the one a frame addresses. *)

Record footprint (o : op) (st st' : State) : Prop := {
  fp_counter : (_message_id (self st) ≤ _message_id (self st'))%Z;
  fp_length : length (futures (loop st)) ≤ length (futures (loop st'));
  fp_entries : ∀ i f,
    _message_futures (self st') !! i = Some f →
    _message_futures (self st) !! i = Some f ∨
    (i = _message_id (self st) ∧ f = length (futures (loop st)));
  fp_open : ∀ f,
    _open_future (self st') = Some f →
    _open_future (self st) = Some f ∨ f = length (futures (loop st));
  fp_futures : ∀ f,
    f < length (futures (loop st)) →
    futures (loop st') !! f = futures (loop st) !! f ∨
    (∃ i, _message_futures (self st) !! i = Some f) ∨
    _open_future (self st) = Some f;
  fp_kept : ∀ i f,
    _message_futures (self st) !! i = Some f →
    _message_futures (self st') !! i = Some f ∨
    ∃ msg, o = Frame msg ∧ frame_id msg = Some i
}.

(** ** Entries that have left the table

    Once the entry of a call has been removed, its id is below the counter
    and its future is referenced neither by the table nor by the open gate:
    no operation reaches either of them again. *)

Record retired (i : Z) (f : fut) (st : State) : Prop := {
  rt_id : (i < _message_id (self st))%Z;
  rt_absent : _message_futures (self st) !! i = None;
  rt_alloc : f < length (futures (loop st));
  rt_unheld : ∀ j, _message_futures (self st) !! j ≠ Some f;
  rt_not_open : _open_future (self st) ≠ Some f
}.

(** ** A session, for the examples

    A stream that has connected and whose socket is open, with two dicts of
    the caller in the store; the frames of the external interface. *)

Definition subscribe : dict :=
  {[ "method" := JStr "SUBSCRIBE";
     "params" := JArr [JStr "btcusdt@ticker"] ]}.

Definition opened : State :=
  run [Connect; Opened 7] (new_stream "wss://stream" [subscribe; ∅]).

Definition reply (i : Z) (v : json) : json :=
  JObj {[ "id" := JInt i; "result" := v ]}.

Definition failure (i code : Z) (m : string) : json :=
  JObj {[ "id" := JInt i;
          "error" := JObj {[ "code" := JInt code; "msg" := JStr m ]} ]}.

Definition bare (i : Z) : json := JObj {[ "id" := JInt i ]}.

Definition ticker : json :=
  JObj {[ "stream" := JStr "btcusdt@ticker"; "data" := JObj ∅ ]}.

(** ** The connection task ([Stream._receive], [Stream._connect])

    What the connection task can raise besides the exceptions above, what it
    does to the outside, and what the awaited calls of the socket do.
    [ConnectionClosed] stands for the class and its two subclasses, which
    [_connect] catches together. *)

Inductive raised :=
| Exn (e : exn)
| AttributeError
| CancelledError.

Inductive effect :=
| Pinged (sock : socket)
| LoggedInvalidJson (text : string).

(** The end of [await asyncio.wait_for(self._socket.recv(), ..)]: the wait
    times out, and [ping] is what [self._socket.ping()] then raises; a text
    arrives, and [parsed] is what [json.loads] makes of it ([None]: it raises
    [ValueError]); or the call raises. *)
Inductive recv :=
| RecvTimeout (ping : option raised)
| RecvText (text : string) (parsed : option json)
| RecvRaise (e : raised).

(** [Stream._receive]. [during] are the operations of other tasks that run
    while the call waits for the socket; [self._socket] is read once before
    the wait, for [recv], and once after it, for [ping]. The result is the
    state, what was done to the outside, and the exception that leaves
    [_receive], if any. *)
Definition _receive (during : list op) (r : recv) (st : State)
    : State * list effect * option raised :=
  match _socket (self st) with
  | None => (st, [], Some AttributeError)
  | Some _ =>
      let st1 := run during st in
      match r with
      | RecvRaise e => (st1, [], Some e)
      | RecvTimeout ping =>
          match _socket (self st1) with
          | None => (st1, [], Some AttributeError)
          | Some sock => (st1, [Pinged sock], ping)
          end
      | RecvText text None => (st1, [LoggedInvalidJson text], None)
      | RecvText text (Some msg) =>
          match _handle_message msg st1 with
          | Ok st2 => (st2, [], None)
          | Raise e => (st1, [], Some (Exn e))
          end
      end
  end.

(** The exceptions of the [except] clause of [_connect]. *)
Definition caught (e : raised) : bool :=
  match e with
  | Exn ConnectionClosed | CancelledError => true
  | _ => false
  end.

(** How an attempt of [_connect] stands at the end of what is known of the
    socket: it has returned, it has raised (and the retry takes over), or it
    is waiting in [recv]. *)
Inductive loop_end :=
| Returned
| Raised (e : raised)
| Running.

(** The [try] block of [_connect]: the [while not self._closing] loop around
    [_receive], and the [except] clause, which returns when the stream is
    closing and raises again when it is not. *)
Fixpoint receive_loop (its : list (list op * recv)) (st : State)
    : State * list effect * loop_end :=
  match its with
  | [] => (st, [], if _closing (self st) then Returned else Running)
  | (during, r) :: rest =>
      if _closing (self st) then (st, [], Returned)
      else
        match _receive during r st with
        | (st1, fx, None) =>
            let '(st2, fx', e) := receive_loop rest st1 in
            (st2, fx ++ fx', e)
        | (st1, fx, Some e) =>
            (st1, fx,
             if caught e && _closing (self st1) then Returned else Raised e)
        end
  end.

(** [Stream._connect], one attempt: [opened] is what [connect(self._uri)]
    gives, the socket or the exception. *)
Definition _connect (opened : raised + socket) (its : list (list op * recv))
    (st : State) : State * list effect * loop_end :=
  match opened with
  | inl e => (st, [], Raised e)
  | inr sock =>
      match _connect_opened sock st with
      | Raise e => (st, [], Raised (Exn e))
      | Ok st1 => receive_loop its st1
      end
  end.

(** An iteration of the loop that only keeps the connection alive or
    forwards an event: an idle timeout with a ping that goes through, a text
    that is not JSON, or a JSON object without an id. *)
Definition quiet (it : list op * recv) : Prop :=
  it.1 = [] ∧
  match it.2 with
  | RecvTimeout None | RecvText _ None => True
  | RecvText _ (Some (JObj d)) => d !! STREAM_KEY_ID = None
  | _ => False
  end.

(** The events and the outside effects of quiet iterations, in order. *)
Definition event_of (it : list op * recv) : list json :=
  match it.2 with
  | RecvText _ (Some msg) => [msg]
  | _ => []
  end.

Definition effect_of (sock : socket) (it : list op * recv) : list effect :=
  match it.2 with
  | RecvTimeout _ => [Pinged sock]
  | RecvText text None => [LoggedInvalidJson text]
  | _ => []
  end.

(** ** Futures that nothing holds, tasks *)

(** A future that neither the pending table nor the open gate refers to. *)
Record unheld (f : fut) (st : State) : Prop := {
  uh_alloc : f < length (futures (loop st));
  uh_table : ∀ j, _message_futures (self st) !! j ≠ Some f;
  uh_gate : _open_future (self st) ≠ Some f
}.

(** The task references of the stream point at tasks of their kind. *)
Record task_wf (st : State) : Prop := {
  tw_conn : ∀ t, _conn_task (self st) = Some t →
    t_kind <$> tasks (loop st) !! t = Some TConnect;
  tw_connected : ∀ t, _connected_task (self st) = Some t →
    t_kind <$> tasks (loop st) !! t = Some TEmitConnected
}.

(** Every task of an [on_connected] callback that was not cancelled is the
    one the stream refers to. *)
Definition one_connected (st : State) : Prop :=
  ∀ t, tasks (loop st) !! t
       = Some {| t_kind := TEmitConnected; t_cancel := false |} →
       _connected_task (self st) = Some t.

(** A run in which a socket is opened only when no [on_connected] task is
    referred to, as in the attempts of one connection task, between which
    [_reconnect] runs. *)
Fixpoint paced (ops : list op) (st : State) : Prop :=
  match ops with
  | [] => True
  | o :: ops' =>
      match o with
      | Opened _ => _connected_task (self st) = None
      | _ => True
      end ∧ paced ops' (exec o st)
  end.

Definition is_close_end (o : op) : bool :=
  match o with
  | CloseEnd => true
  | _ => false
  end.

(** ** The processors ([ProcessorBase]) *)

(** [ProcessorBase.key] *)
Definition key (t symbol : string) : string := (symbol +:+ "@") +:+ t.

Fixpoint has_at (s : string) : bool :=
  match s with
  | EmptyString => false
  | String c s' => bool_decide (c = "@"%char) || has_at s'
  end.

(** [self._handlers], a set of handler objects: the objects by their
    identity. [add_handler] is [set.add]. *)
Definition no_handlers : gmap nat handler := ∅.

Definition add_handler (h : handler) (hs : gmap nat handler)
    : gmap nat handler :=
  match hs !! h_id h with
  | Some _ => hs
  | None => <[h_id h := h]> hs
  end.

(** The set after [add_handler] was called with each of [added] in turn. *)
Definition register_all (added : list handler) (hs : gmap nat handler)
    : gmap nat handler :=
  foldl (fun acc h => add_handler h acc) hs added.

(** Every handler of the set is held under its own identity. *)
Definition keyed (hs : gmap nat handler) : Prop :=
  ∀ i h, hs !! i = Some h → h_id h = i.

(** An order in which the [for] loop of [dispatch] may go through the set. *)
Definition iteration_of (hs : gmap nat handler) (order : list handler)
    : Prop :=
  order ≡ₚ (map_to_list hs).*2.

(** * Proofs *)

Ltac unfold_res := unfold mbind, mret, res_bind, res_ret in *.

Lemma loop_eta l : with_futures (futures l) l = l.
Proof. by destruct l. Qed.

Lemma resolve_ok f x l l' :
  resolve f x l = Ok l' →
  futures l !! f = Some Pending ∧ l' = with_futures (<[f := x]> (futures l)) l.
Proof.
  unfold resolve. destruct (futures l !! f) as [[]|] eqn:E; intros H;
    simplify_eq; done.
Qed.

Lemma resolve_pending f x l :
  futures l !! f = Some Pending →
  resolve f x l = Ok (with_futures (<[f := x]> (futures l)) l).
Proof. unfold resolve. by intros ->. Qed.

(** [frame_id] is the key that the guard of the handler looks up. *)
Lemma frame_id_spec msg i :
  frame_id msg = Some i ↔
  contains msg STREAM_KEY_ID = Ok true ∧
  ∃ v, subscript msg STREAM_KEY_ID = Ok v ∧ table_key v = Ok (Some i).
Proof.
  split.
  - destruct msg as [| | | | |d]; try discriminate. cbn.
    destruct (d !! STREAM_KEY_ID) as [v|] eqn:Ev; [|discriminate].
    intros Hv. rewrite bool_decide_eq_true_2 by eauto. split; [done|].
    exists v. split; [done|]. destruct v; by simplify_eq.
  - intros [_ (v & Hs & Hk)]. destruct msg as [| | | | |d]; try discriminate.
    cbn in *. destruct (d !! STREAM_KEY_ID) as [w|]; [|discriminate].
    injection Hs as ->. destruct v; cbn in Hk; by simplify_eq.
Qed.

(** The handler on a frame that addresses a pending entry. *)
Lemma handle_message_matched st msg i f :
  _message_futures (self st) !! i = Some f →
  futures (loop st) !! f = Some Pending →
  frame_id msg = Some i →
  match reply_of msg with
  | Some x =>
      _handle_message msg st =
      Ok {| self := with_message_futures
                      (delete i (_message_futures (self st))) (self st);
            loop := with_futures (<[f := x]> (futures (loop st))) (loop st) |}
  | None => ∃ e, _handle_message msg st = Raise e
  end.
Proof.
  intros Hi Hf Hid. destruct msg as [| | | | |d]; try discriminate.
  unfold frame_id in Hid. unfold _handle_message, reply_of, settle.
  cbn [contains]. unfold_res.
  destruct (d !! STREAM_KEY_ID) as [v|] eqn:Ev; [|discriminate].
  rewrite bool_decide_eq_true_2 by eauto. cbn [negb subscript]. rewrite Ev.
  assert (table_key v = Ok (Some i)) as ->
    by (destruct v; simplify_eq; done).
  cbn [mbind option_bind]. rewrite Hi. cbn [option_map].
  destruct (d !! STREAM_KEY_RESULT) as [r|] eqn:Er.
  - rewrite bool_decide_eq_true_2 by eauto.
    unfold set_result. by rewrite (resolve_pending _ _ _ Hf).
  - rewrite bool_decide_eq_false_2 by (intros [? ?]; done).
    destruct (d !! STREAM_KEY_ERROR) as [err|] eqn:Ee.
    + rewrite bool_decide_eq_true_2 by eauto.
      destruct err as [| | | | |e]; try (by eexists).
      cbn [subscript].
      destruct (e !! ERROR_KEY_CODE) as [c|]; [|by eexists].
      destruct (e !! ERROR_KEY_MESSAGE) as [m|]; [|by eexists].
      unfold set_exception. by rewrite (resolve_pending _ _ _ Hf).
    + rewrite bool_decide_eq_false_2 by (intros [? ?]; done).
      by rewrite list_insert_id, loop_eta.
Qed.

(** The handler on a frame that addresses no pending entry. *)
Lemma handle_message_unmatched st msg st' :
  (∀ i, frame_id msg = Some i → _message_futures (self st) !! i = None) →
  _handle_message msg st = Ok st' →
  st' = _emit_on_message msg st.
Proof.
  intros Hno. unfold _handle_message. unfold_res.
  destruct msg as [| | | |l|d]; cbn [contains]; try discriminate.
  - destruct (substring_of _ _); cbn [negb subscript]; congruence.
  - destruct (existsb _ _); cbn [negb subscript]; congruence.
  - destruct (d !! STREAM_KEY_ID) as [v|] eqn:Ev.
    + rewrite bool_decide_eq_true_2 by eauto. cbn [negb subscript]. rewrite Ev.
      destruct v as [|b|n| | |]; cbn [table_key mbind option_bind];
        try discriminate; try congruence.
      * rewrite (Hno (if b then 1 else 0)%Z); [cbn; congruence|].
        unfold frame_id. by rewrite Ev.
      * rewrite (Hno n); [cbn; congruence|]. unfold frame_id. by rewrite Ev.
    + rewrite bool_decide_eq_false_2 by (intros [? ?]; done).
      cbn [negb]. congruence.
Qed.

(** Every completed run of the handler is one of the two. *)
Lemma handle_message_inv st msg st' :
  (∀ i f, _message_futures (self st) !! i = Some f →
          futures (loop st) !! f = Some Pending) →
  _handle_message msg st = Ok st' →
  st' = _emit_on_message msg st ∨
  ∃ i f x,
    frame_id msg = Some i ∧ _message_futures (self st) !! i = Some f ∧
    reply_of msg = Some x ∧
    st' = {| self := with_message_futures
                       (delete i (_message_futures (self st))) (self st);
             loop := with_futures (<[f := x]> (futures (loop st))) (loop st) |}.
Proof.
  intros Hp H.
  destruct (frame_id msg) as [i|] eqn:Hid.
  - destruct (_message_futures (self st) !! i) as [f|] eqn:Hi.
    + right. pose proof (handle_message_matched st msg i f Hi (Hp _ _ Hi) Hid) as M.
      destruct (reply_of msg) as [x|].
      * exists i, f, x. rewrite M in H. by simplify_eq.
      * destruct M as [e M]. congruence.
    + left. eapply handle_message_unmatched; [|done].
      intros j Hj. congruence.
  - left. eapply handle_message_unmatched; [|done]. intros j Hj. congruence.
Qed.

Section invariant.
Implicit Types (st : State) (f : fut).

Lemma wf_new uri ds : wf (new_stream uri ds).
Proof. split; cbn; intros *; try rewrite lookup_empty; done. Qed.

Lemma wf_before_connect st : wf st → wf (_before_connect st).
Proof.
  intros [Hids Hp Hinj Hopen]. split; cbn.
  - done.
  - intros i f Hi. rewrite lookup_app_l; eauto using lookup_lt_Some.
  - done.
  - intros f [= <-]. split; [by rewrite list_lookup_middle|].
    intros i Hi. apply Hp, lookup_lt_Some in Hi. lia.
Qed.

Lemma wf_connect st : wf st → wf (connect st).
Proof.
  intros H. apply wf_before_connect in H. destruct H as [? ? ? ?].
  split; cbn; eauto.
Qed.

Lemma wf_reconnect st : wf st → wf (_reconnect st).
Proof.
  intros [? ? ? ?]. apply wf_before_connect.
  destruct (_connected_task (self st)); split; cbn; eauto.
Qed.

Lemma wf_set_socket st sock st' :
  wf st → _set_socket sock st = Ok st' → wf st'.
Proof.
  intros [Hids Hp Hinj Hopen]. unfold _set_socket. unfold_res.
  destruct (_open_future (self st)) as [f|] eqn:Ef.
  - unfold set_result. destruct (resolve _ _ _) as [l|] eqn:R; [|done].
    apply resolve_ok in R as [Hf ->]. intros [= <-].
    destruct (Hopen f eq_refl) as [_ Hnot]. split; cbn; try done.
    intros i g Hi. rewrite list_lookup_insert_ne; [eauto|].
    intros ->. by apply (Hnot i).
  - intros [= <-]. split; cbn; eauto. by rewrite Ef.
Qed.

Lemma wf_connect_opened st sock st' :
  wf st → _connect_opened sock st = Ok st' → wf st'.
Proof.
  intros H. unfold _connect_opened. unfold_res.
  destruct (_set_socket sock st) as [st1|] eqn:E; [|done].
  apply (wf_set_socket _ _ _ H) in E as [? ? ? ?]. intros [= <-]. split; cbn; eauto.
Qed.

Lemma wf_handle_message st msg st' :
  wf st → _handle_message msg st = Ok st' → wf st'.
Proof.
  intros [Hids Hp Hinj Hopen] H.
  destruct (handle_message_inv _ _ _ Hp H) as [-> |(i & f & x & _ & Hi & _ & ->)].
  - split; cbn; eauto.
  - split; cbn.
    + intros j g [_ Hj]%lookup_delete_Some. eauto.
    + intros j g [Hne Hj]%lookup_delete_Some.
      rewrite list_lookup_insert_ne; [eauto|]. intros ->. eauto.
    + intros j k g [_ Hj]%lookup_delete_Some [_ Hk]%lookup_delete_Some. eauto.
    + intros g Hg. destruct (Hopen g Hg) as [Hgp Hnot]. split.
      * rewrite list_lookup_insert_ne; [done|]. intros ->. by apply (Hnot i).
      * intros j [_ Hj]%lookup_delete_Some. by apply (Hnot j).
Qed.

Lemma wf_send_stamp st msg sock wr : wf st → wf (fst (send_stamp msg sock wr st)).
Proof.
  intros [Hids Hp Hinj Hopen]. split; cbn.
  - intros i f [[<- _]|[_ Hi]]%lookup_insert_Some; [lia|].
    apply Hids in Hi. lia.
  - intros i f [[_ <-]|[_ Hi]]%lookup_insert_Some.
    + by rewrite list_lookup_middle.
    + rewrite lookup_app_l; eauto using lookup_lt_Some.
  - intros i j f [[<- <-]|[Hne Hi]]%lookup_insert_Some
      [[<- Hf]|[Hne' Hj]]%lookup_insert_Some; try done.
    + apply Hp, lookup_lt_Some in Hj. lia.
    + apply Hp, lookup_lt_Some in Hi. lia.
    + eauto.
  - intros f Hf. destruct (Hopen f Hf) as [Hfp Hnot]. split.
    + rewrite lookup_app_l; eauto using lookup_lt_Some.
    + intros i [[_ <-]|[_ Hi]]%lookup_insert_Some.
      * apply lookup_lt_Some in Hfp. lia.
      * by apply (Hnot i).
Qed.

Lemma wf_send st msg wr : wf st → wf (fst (send msg wr st)).
Proof.
  intros H. unfold send. destruct (_socket (self st)).
  - by apply wf_send_stamp.
  - by destruct (_open_future (self st)).
Qed.

Lemma wf_send_resume st f msg wr : wf st → wf (fst (send_resume f msg wr st)).
Proof.
  intros H. unfold send_resume.
  destruct (futures (loop st) !! f) as [[|[]|]|]; try done.
  by apply wf_send_stamp.
Qed.

Lemma wf_close_begin st code st' : wf st → close_begin code st = Ok st' → wf st'.
Proof.
  intros [? ? ? ?]. unfold close_begin.
  destruct (_conn_task (self st)); [|done]. intros [= <-].
  destruct (_socket (self st)); split; cbn; eauto.
Qed.

Lemma wf_close_end st : wf st → wf (close_end st).
Proof. intros [? ? ? ?]. split; cbn; eauto. Qed.

Lemma wf_exec o st : wf st → wf (exec o st).
Proof.
  intros H. destruct o; cbn [exec].
  - by apply wf_connect.
  - destruct (_connect_opened sock st) eqn:E; cbn [keep];
      eauto using wf_connect_opened.
  - destruct (_handle_message msg st) eqn:E; cbn [keep];
      eauto using wf_handle_message.
  - by apply wf_reconnect.
  - by apply wf_send.
  - by apply wf_send_resume.
  - destruct (close_begin code st) eqn:E; cbn [keep];
      eauto using wf_close_begin.
  - by apply wf_close_end.
Qed.

Lemma wf_run ops st : wf st → wf (run ops st).
Proof. revert st. induction ops; cbn; eauto using wf_exec. Qed.

Lemma reachable_wf st : reachable st → wf st.
Proof. induction 1; eauto using wf_new, wf_exec. Qed.

End invariant.

Lemma admissible_reachable ops st :
  reachable st → admissible ops st = true → reachable (run ops st).
Proof.
  revert st. induction ops as [|o ops IH]; intros st Hr; cbn; [done|].
  intros [He Ha]%andb_prop. apply IH; [|done]. by constructor.
Qed.

Lemma opened_reachable : reachable opened.
Proof. apply admissible_reachable; [apply reach_new|reflexivity]. Qed.

Lemma footprint_refl o st : footprint o st st.
Proof. split; try (by eauto); lia. Qed.

Lemma footprint_before_connect o st : footprint o st (_before_connect st).
Proof.
  split; cbn; try (by eauto); try lia.
  - rewrite length_app. lia.
  - intros f [= <-]. by right.
  - intros f Hf. left. by rewrite lookup_app_l.
Qed.

Lemma footprint_send_stamp o st msg sock wr :
  wf st → footprint o st (fst (send_stamp msg sock wr st)).
Proof.
  intros [Hids _ _ _]. split; cbn; try (by eauto); try lia.
  - rewrite length_app. lia.
  - intros i f [[<- <-]|[_ Hi]]%lookup_insert_Some; eauto.
  - intros f Hf. left. by rewrite lookup_app_l.
  - intros i f Hi. left. rewrite lookup_insert_ne; [done|].
    apply Hids in Hi. lia.
Qed.

Lemma footprint_exec o st : wf st → footprint o st (exec o st).
Proof.
  intros Hwf. destruct o; cbn [exec].
  - (* connect *)
    destruct (footprint_before_connect Connect st). by split.
  - (* the socket opens *)
    unfold _connect_opened, _set_socket. unfold_res.
    destruct (_open_future (self st)) as [g|] eqn:Eg.
    + unfold set_result. destruct (resolve g _ (loop st)) as [l|] eqn:R;
        [|apply footprint_refl].
      apply resolve_ok in R as [Hg ->]. cbn [keep].
      split; cbn; try (by eauto); try lia.
      * by rewrite length_insert.
      * intros f Hf. destruct (decide (f = g)) as [-> |Hne]; [by auto|].
        left. by rewrite list_lookup_insert_ne.
    + cbn [keep]. split; cbn; try (by eauto); try lia.
  - (* a frame *)
    destruct (_handle_message msg st) as [st'|] eqn:H; cbn [keep];
      [|apply footprint_refl].
    destruct (handle_message_inv _ _ _ (wf_pending _ Hwf) H)
      as [-> |(i & g & x & Hid & Hi & _ & ->)].
    + split; cbn; try (by eauto); lia.
    + split; cbn; try (by eauto); try lia.
      * by rewrite length_insert.
      * intros j f [_ Hj]%lookup_delete_Some. eauto.
      * intros f Hf. destruct (decide (f = g)) as [-> |Hne]; [by eauto|].
        left. by rewrite list_lookup_insert_ne.
      * intros j f Hj. destruct (decide (j = i)) as [-> |Hne]; [by eauto|].
        left. by rewrite lookup_delete_ne.
  - (* reconnect *)
    unfold _reconnect.
    destruct (_connected_task (self st));
      match goal with |- footprint _ _ (_before_connect ?s) =>
        destruct (footprint_before_connect Reconnect s) end; by split.
  - (* send *)
    unfold send. destruct (_socket (self st)).
    + by apply footprint_send_stamp.
    + destruct (_open_future (self st)); apply footprint_refl.
  - (* a send woken up *)
    unfold send_resume.
    destruct (futures (loop st) !! f) as [[|[]|]|]; try apply footprint_refl.
    by apply footprint_send_stamp.
  - (* close, to its suspension *)
    unfold close_begin. destruct (_conn_task (self st));
      [|apply footprint_refl].
    cbn [keep]. destruct (_socket (self st)); split; cbn; try (by eauto); lia.
  - (* close, after its suspension *)
    split; cbn; try (by eauto); lia.
Qed.

Lemma retired_exec o i f st :
  wf st → retired i f st →
  retired i f (exec o st) ∧
  futures (loop (exec o st)) !! f = futures (loop st) !! f.
Proof.
  intros Hwf [Hid Habs Hal Hun Hop].
  destruct (footprint_exec o st Hwf) as [Hc Hl He Ho Hf _].
  split; [split|].
  - lia.
  - destruct (_message_futures (self (exec o st)) !! i) as [g|] eqn:E; [|done].
    destruct (He _ _ E) as [?|[-> _]]; [congruence|lia].
  - lia.
  - intros j Hj. destruct (He _ _ Hj) as [?|[_ ->]]; [by eapply Hun|lia].
  - intros Hj. destruct (Ho _ Hj) as [?| ->]; [done|lia].
  - destruct (Hf f Hal) as [?|[[j Hj]|?]]; [done| |done]. by destruct (Hun j).
Qed.

Lemma retired_run ops i f st :
  wf st → retired i f st →
  retired i f (run ops st) ∧
  futures (loop (run ops st)) !! f = futures (loop st) !! f.
Proof.
  revert st. induction ops as [|o ops IH]; intros st Hwf Hr; [done|].
  cbn [run]. destruct (retired_exec o i f st Hwf Hr) as [Hr' Heq].
  destruct (IH _ (wf_exec o st Hwf) Hr') as [? ?]. split; congruence.
Qed.

(** After the handler has taken the entry [i] out, the call is retired. *)
Lemma retired_after_frame st i f x :
  wf st → _message_futures (self st) !! i = Some f →
  retired i f
    {| self := with_message_futures
                 (delete i (_message_futures (self st))) (self st);
       loop := with_futures (<[f := x]> (futures (loop st))) (loop st) |}.
Proof.
  intros [Hids Hp Hinj Hopen] Hi. split; cbn.
  - eauto.
  - by rewrite lookup_delete_eq.
  - rewrite length_insert. eauto using lookup_lt_Some.
  - intros j [Hne Hj]%lookup_delete_Some. eauto.
  - intros Ho. destruct (Hopen f Ho) as [_ Hnot]. by apply (Hnot i).
Qed.

(** The state of a call's future at the end of a run is what the first
    frame that carried its id held. *)
Lemma call_outcome ops st i f :
  wf st → _message_futures (self st) !! i = Some f →
  futures (loop (run ops st)) !! f = Some (first_reply i ops).
Proof.
  revert st. induction ops as [|o ops IH]; intros st Hwf Hi.
  { cbn. by eapply wf_pending. }
  cbn [run].
  assert (∀ msg, o = Frame msg → frame_id msg = Some i →
            futures (loop (run ops (exec o st))) !! f
            = Some (first_reply i (o :: ops))) as Hframe.
  { intros msg -> Hid. cbn [first_reply]. rewrite bool_decide_eq_true_2 by done.
    pose proof (handle_message_matched st msg i f Hi
                  (wf_pending _ Hwf _ _ Hi) Hid) as M.
    cbn [exec]. destruct (reply_of msg) as [x|].
    - rewrite M. cbn [keep].
      pose proof (retired_after_frame st i f x Hwf Hi) as Hr.
      assert (wf (exec (Frame msg) st)) as Hwf' by by apply wf_exec.
      cbn [exec] in Hwf'. rewrite M in Hwf'. cbn [keep] in Hwf'.
      destruct (retired_run ops i f _ Hwf' Hr) as [_ ->]. cbn.
      apply list_lookup_insert_eq.
      eauto using lookup_lt_Some, wf_pending.
    - destruct M as [e ->]. cbn [keep]. by apply IH. }
  destruct (fp_kept _ _ _ (footprint_exec o st Hwf) _ _ Hi)
    as [Hi'|(msg & -> & Hid)]; [|by eapply Hframe].
  destruct o; try (by apply IH; [apply wf_exec|]).
  destruct (decide (frame_id msg = Some i)) as [Hid|Hid]; [by eapply Hframe|].
  cbn [first_reply]. rewrite bool_decide_eq_false_2 by done.
  apply IH; [by apply wf_exec|done].
Qed.

(** A frame changes the state of at most the future that the table holds
    under the id of the frame. *)
Lemma handle_message_settles st msg st' g :
  wf st → _handle_message msg st = Ok st' →
  futures (loop st') !! g ≠ futures (loop st) !! g →
  frame_id msg ≫= (_message_futures (self st) !!.) = Some g.
Proof.
  intros Hwf H Hne.
  destruct (handle_message_inv _ _ _ (wf_pending _ Hwf) H)
    as [-> |(i & f & x & Hid & Hi & _ & ->)]; [done|].
  cbn in Hne. destruct (decide (g = f)) as [-> |Hgf].
  - rewrite Hid. done.
  - by rewrite list_lookup_insert_ne in Hne.
Qed.

(** ** Requests and their replies *)

Lemma send_stamp_entry msg sock wr st :
  _message_futures (self (fst (send_stamp msg sock wr st)))
    !! _message_id (self st) = Some (length (futures (loop st))).
Proof. cbn. apply lookup_insert_eq. Qed.

Lemma send_stamp_outcome msg sock wr st :
  stamped_id (snd (send_stamp msg sock wr st)) = Some (_message_id (self st)) ∧
  ∀ i f, snd (send_stamp msg sock wr st) = AwaitReply i f ∨
         (∃ e, snd (send_stamp msg sock wr st) = WriteFailed i f e) →
         i = _message_id (self st) ∧ f = length (futures (loop st)).
Proof.
  split; [by destruct wr|].
  intros i f [H|[e H]]; cbn in H; destruct wr; by simplify_eq.
Qed.

Lemma awaits_reply_entry st msg st1 i f :
  wf st → awaits_reply st msg st1 i f →
  wf st1 ∧ _message_futures (self st1) !! i = Some f.
Proof.
  intros Hwf [H|[g H]].
  - pose proof (wf_send st msg None Hwf) as Hwf1. rewrite H in Hwf1.
    split; [done|]. unfold send in H.
    destruct (_socket (self st)) as [sock|];
      [|destruct (_open_future (self st)); by simplify_eq].
    pose proof (send_stamp_entry msg sock None st) as E. rewrite H in E.
    destruct (proj2 (send_stamp_outcome msg sock None st) i f) as [-> ->];
      [left; by rewrite H|done].
  - pose proof (wf_send_resume st g msg None Hwf) as Hwf1. rewrite H in Hwf1.
    split; [done|]. unfold send_resume in H.
    destruct (futures (loop st) !! g) as [[|[|sock]|]|]; try by simplify_eq.
    pose proof (send_stamp_entry msg sock None st) as E. rewrite H in E.
    destruct (proj2 (send_stamp_outcome msg sock None st) i f) as [-> ->];
      [left; by rewrite H|done].
Qed.

(** C1. Every call of [send] that has stamped its request is resolved with
    what the response frame carrying its own id holds (the result, or the
    error as a [StreamSubscribeException]), whatever other sends, frames and
    reconnections are scheduled around it and in whatever order the frames
    arrive; and a frame settles at most one future, the one that the table
    holds under the id of the frame, so at most one waiting caller. *)
Theorem send_reply_correlation st msg st1 i f :
  reachable st → awaits_reply st msg st1 i f →
  (∀ ops, futures (loop (run ops st1)) !! f = Some (first_reply i ops)) ∧
  (∀ ops frame st2 g1 g2,
      _handle_message frame (run ops st1) = Ok st2 →
      futures (loop st2) !! g1 ≠ futures (loop (run ops st1)) !! g1 →
      futures (loop st2) !! g2 ≠ futures (loop (run ops st1)) !! g2 →
      g1 = g2 ∧
      frame_id frame ≫= (_message_futures (self (run ops st1)) !!.) = Some g1).
Proof.
  intros Hr Ha.
  destruct (awaits_reply_entry st msg st1 i f (reachable_wf _ Hr) Ha)
    as [Hwf1 Hi].
  split.
  - intros ops. by apply call_outcome.
  - intros ops frame st2 g1 g2 H H1 H2.
    pose proof (wf_run ops st1 Hwf1) as Hwf.
    pose proof (handle_message_settles _ _ _ g1 Hwf H H1) as E1.
    pose proof (handle_message_settles _ _ _ g2 Hwf H H2) as E2.
    split; [congruence|done].
Qed.

Lemma send_reply_correlation_witness :
  reachable opened ∧
  awaits_reply opened 0 (fst (send 0 None opened)) 0 1 ∧
  futures (loop (run [Send 1 None; Frame (reply 1 (JStr "late"));
                      Frame ticker; Frame (reply 0 JNull)]
                   (fst (send 0 None opened)))) !! 1
  = Some (Done (VJson JNull)).
Proof.
  assert (reachable opened) as Hr
    by (apply admissible_reachable; [apply reach_new|reflexivity]).
  assert (awaits_reply opened 0 (fst (send 0 None opened)) 0 1) as Ha
    by (left; vm_compute; reflexivity).
  split; [exact Hr|]. split; [exact Ha|].
  pose proof (proj1 (send_reply_correlation _ _ _ _ _ Hr Ha)
                [Send 1 None; Frame (reply 1 (JStr "late"));
                 Frame ticker; Frame (reply 0 JNull)]) as H.
  vm_compute in H |- *. exact H.
Defined.

(** ** Frames with neither a result nor an error *)

Lemma bare_frame_reply msg i :
  frame_id msg = Some i →
  contains msg STREAM_KEY_RESULT = Ok false →
  contains msg STREAM_KEY_ERROR = Ok false →
  reply_of msg = Some Pending.
Proof.
  destruct msg as [| | | | |d]; try discriminate. intros _. cbn.
  intros [= Hr%bool_decide_eq_false] [= He%bool_decide_eq_false].
  destruct (d !! STREAM_KEY_RESULT); [by destruct Hr|].
  destruct (d !! STREAM_KEY_ERROR); [by destruct He|]. done.
Qed.

Lemma handle_message_absent st msg i :
  frame_id msg = Some i → _message_futures (self st) !! i = None →
  _handle_message msg st = Ok (_emit_on_message msg st).
Proof.
  intros Hid Hi. destruct msg as [| | | | |d]; try discriminate.
  unfold frame_id in Hid. unfold _handle_message. cbn [contains]. unfold_res.
  destruct (d !! STREAM_KEY_ID) as [v|] eqn:Ev; [|discriminate].
  rewrite bool_decide_eq_true_2 by eauto. cbn [negb subscript]. rewrite Ev.
  assert (table_key v = Ok (Some i)) as ->
    by (destruct v; simplify_eq; done).
  cbn [mbind option_bind]. by rewrite Hi.
Qed.

(** C5. A frame that carries the id of a pending request but neither a
    result nor an error is handled to the end without an exception, and the
    handling settles no future: the future of the pending request is left as
    it was. *)
Theorem bare_frame_resolves_nothing st msg i f :
  frame_id msg = Some i →
  _message_futures (self st) !! i = Some f →
  contains msg STREAM_KEY_RESULT = Ok false →
  contains msg STREAM_KEY_ERROR = Ok false →
  ∃ st', _handle_message msg st = Ok st' ∧
         loop st' = loop st ∧
         futures (loop st') !! f = futures (loop st) !! f.
Proof.
  intros Hid Hi Hr He. destruct msg as [| | | | |d]; try discriminate.
  unfold frame_id in Hid. unfold _handle_message, settle.
  rewrite Hr, He. cbn [contains]. unfold_res.
  destruct (d !! STREAM_KEY_ID) as [v|] eqn:Ev; [|discriminate].
  rewrite bool_decide_eq_true_2 by eauto. cbn [negb subscript]. rewrite Ev.
  assert (table_key v = Ok (Some i)) as ->
    by (destruct v; simplify_eq; done).
  cbn [mbind option_bind]. rewrite Hi. cbn [option_map]. by eexists.
Qed.

Lemma bare_frame_resolves_nothing_witness :
  ∃ st', _handle_message (bare 0) (fst (send 0 None opened)) = Ok st' ∧
         loop st' = loop (fst (send 0 None opened)) ∧
         futures (loop st') !! 1 = futures (loop (fst (send 0 None opened))) !! 1.
Proof.
  apply (bare_frame_resolves_nothing (fst (send 0 None opened)) (bare 0) 0 1);
    vm_compute; reflexivity.
Defined.

(** C9. The handler deletes the entry that such a frame addresses all the
    same: from then on no run of operations settles the future of the
    waiting caller, and every later frame with the same id is passed to the
    [on_message] callback as an event. *)
Theorem bare_frame_drops_entry st msg i f :
  reachable st →
  frame_id msg = Some i →
  _message_futures (self st) !! i = Some f →
  contains msg STREAM_KEY_RESULT = Ok false →
  contains msg STREAM_KEY_ERROR = Ok false →
  ∃ st', _handle_message msg st = Ok st' ∧
         _message_futures (self st') !! i = None ∧
         ∀ ops,
           futures (loop (run ops st')) !! f = Some Pending ∧
           ∀ later, frame_id later = Some i →
             _handle_message later (run ops st')
             = Ok (_emit_on_message later (run ops st')).
Proof.
  intros Hwf%reachable_wf Hid Hi Hr He.
  pose proof (wf_pending _ Hwf _ _ Hi) as Hf.
  pose proof (handle_message_matched st msg i f Hi Hf Hid) as M.
  rewrite (bare_frame_reply msg i Hid Hr He) in M.
  eexists. split; [exact M|].
  pose proof (retired_after_frame st i f Pending Hwf Hi) as Hret.
  pose proof (wf_handle_message _ _ _ Hwf M) as Hwf'.
  split; [by destruct Hret|]. intros ops.
  destruct (retired_run ops i f _ Hwf' Hret) as [[_ Habs _ _ _] ->].
  split.
  - cbn. apply list_lookup_insert_eq. eauto using lookup_lt_Some.
  - intros later Hl. by eapply handle_message_absent.
Qed.

Lemma bare_frame_drops_entry_witness :
  ∃ st', _handle_message (bare 0) (fst (send 0 None opened)) = Ok st' ∧
         _message_futures (self st') !! 0%Z = None ∧
         ∀ ops,
           futures (loop (run ops st')) !! 1 = Some Pending ∧
           ∀ later, frame_id later = Some 0%Z →
             _handle_message later (run ops st')
             = Ok (_emit_on_message later (run ops st')).
Proof.
  apply (bare_frame_drops_entry (fst (send 0 None opened)) (bare 0) 0 1);
    [|vm_compute; reflexivity..].
  apply (admissible_reachable [Connect; Opened 7; Send 0 None]);
    [apply reach_new|reflexivity].
Defined.

(** ** The id counter *)

Lemma stamps_exec o st :
  match stamps o st with
  | Some i =>
      i = _message_id (self st) ∧
      _message_id (self (exec o st)) = (_message_id (self st) + 1)%Z
  | None => _message_id (self (exec o st)) = _message_id (self st)
  end.
Proof.
  destruct o; cbn [stamps exec]; try done.
  - unfold _connect_opened, _set_socket. unfold_res.
    destruct (_open_future (self st)); [|done].
    unfold set_result, resolve.
    by destruct (futures (loop st) !! _) as [[]|].
  - destruct (_handle_message msg st) as [st'|] eqn:H; [|done]. cbn [keep].
    unfold _handle_message in H. unfold_res.
    destruct (contains msg STREAM_KEY_ID) as [[]|]; cbn [negb] in H;
      [|by simplify_eq|done].
    destruct (subscript msg STREAM_KEY_ID) as [v|]; [|done].
    destruct (table_key v) as [k|]; [|done].
    destruct (option_bind _ _ _ k) as [[m g]|]; [|by simplify_eq].
    destruct (settle msg g (loop st)); by simplify_eq.
  - unfold _reconnect. by destruct (_connected_task (self st)).
  - unfold send. destruct (_socket (self st)); [by destruct wr|].
    by destruct (_open_future (self st)).
  - unfold send_resume.
    destruct (futures (loop st) !! f) as [[|[]|]|]; try done. by destruct wr.
  - unfold close_begin. by destruct (_conn_task (self st)).
Qed.

Lemma ids_assigned_sorted ops st :
  Forall (fun i => _message_id (self st) ≤ i)%Z (ids_assigned ops st) ∧
  StronglySorted Z.lt (ids_assigned ops st) ∧
  (_message_id (self (run ops st))
   = _message_id (self st) + Z.of_nat (length (ids_assigned ops st)))%Z.
Proof.
  revert st. induction ops as [|o ops IH]; intros st; cbn.
  { repeat split; [constructor..|lia]. }
  pose proof (stamps_exec o st) as Hs. destruct (IH (exec o st)) as (Hlb & Hso & Hc).
  destruct (stamps o st) as [i|].
  - destruct Hs as [-> Hs]. rewrite Hs in *. repeat split.
    + constructor; [lia|]. eapply Forall_impl; [done|]. cbn. lia.
    + constructor; [done|]. eapply Forall_impl; [done|]. cbn. lia.
    + cbn [length]. lia.
  - rewrite Hs in *. done.
Qed.

(** C6. The ids that the sends of a run stamp, whatever reconnections and
    closes the run contains, are the consecutive integers from the counter
    on: strictly increasing, hence never reused; [_reconnect] and [close]
    leave the counter as it is. *)
Theorem message_ids_strictly_increase ops st :
  ids_assigned ops st
  = seqZ (_message_id (self st)) (Z.of_nat (length (ids_assigned ops st))) ∧
  StronglySorted Z.lt (ids_assigned ops st) ∧
  NoDup (ids_assigned ops st) ∧
  _message_id (self (_reconnect st)) = _message_id (self st) ∧
  (∀ code st', close code st = Ok st' →
     _message_id (self st') = _message_id (self st)) ∧
  (∀ msg wr o st',
     send msg wr (_reconnect st) = (st', o) →
     ∀ i, stamped_id o = Some i → i = _message_id (self st)).
Proof.
  repeat split.
  - revert st. induction ops as [|o ops IH]; intros st; [done|]. cbn.
    pose proof (stamps_exec o st) as Hs. specialize (IH (exec o st)).
    destruct (stamps o st) as [i|].
    + destruct Hs as [-> Hs]. rewrite Hs in IH. cbn [length].
      rewrite Nat2Z.inj_succ, seqZ_cons by lia. f_equal.
      by replace (Z.pred (Z.succ (Z.of_nat (length (ids_assigned ops (exec o st))))))
        with (Z.of_nat (length (ids_assigned ops (exec o st)))) by lia.
    + by rewrite Hs in IH.
  - apply ids_assigned_sorted.
  - destruct (ids_assigned_sorted ops st) as (_ & Hs & _).
    induction Hs as [|i l _ IH Hall]; constructor; [|done].
    intros Hin. eapply Forall_forall in Hall; [|done]. lia.
  - apply (stamps_exec Reconnect st).
  - intros code st' H. pose proof (stamps_exec (CloseBegin code) st) as Hs.
    unfold close in H. unfold_res. cbn in Hs.
    destruct (close_begin code st); by simplify_eq.
  - intros msg wr o st' H i Ho.
    pose proof (stamps_exec (Send msg wr) (_reconnect st)) as Hs.
    cbn [stamps] in Hs. rewrite H in Hs. cbn [snd] in Hs. rewrite Ho in Hs.
    destruct Hs as [-> _]. apply (stamps_exec Reconnect st).
Qed.

(** ** Streams that were never connected *)

(** Without [connect], nothing happens to a new stream: the operations of
    the connection task are not enabled, and [send] and [close] raise. *)
Lemma never_connected_exec o uri ds :
  is_connect o = false → enabled o (new_stream uri ds) = true →
  exec o (new_stream uri ds) = new_stream uri ds.
Proof. destruct o; cbn; try done; by intros ? ?%bool_decide_eq_true%is_Some_None. Qed.

Lemma never_connected_run ops uri ds :
  forallb (fun o => negb (is_connect o)) ops = true →
  admissible ops (new_stream uri ds) = true →
  run ops (new_stream uri ds) = new_stream uri ds.
Proof.
  induction ops as [|o ops IH]; cbn; [done|].
  intros [Ho Hops]%andb_prop [He Ha]%andb_prop.
  apply negb_true_iff in Ho.
  rewrite (never_connected_exec o uri ds Ho He) in *. by apply IH.
Qed.

(** C7. On a stream on which [connect] was never called, whatever else was
    called on it, [send] raises [StreamDisconnectedException] at once: it is
    not suspended, and it leaves the whole state, the pending table and the
    id counter with it, as it was. *)
Theorem send_never_connected uri ds ops msg wr :
  forallb (fun o => negb (is_connect o)) ops = true →
  admissible ops (new_stream uri ds) = true →
  let st := run ops (new_stream uri ds) in
  send msg wr st = (st, NotSent (StreamDisconnectedException uri)) ∧
  _message_futures (self (fst (send msg wr st))) = _message_futures (self st) ∧
  _message_id (self (fst (send msg wr st))) = _message_id (self st).
Proof.
  intros Hc Ha st. subst st. by rewrite (never_connected_run ops uri ds Hc Ha).
Qed.

Lemma send_never_connected_witness :
  let st := run [Send 0 None; CloseBegin 4999; SendResume 0 0 None]
              (new_stream "wss://stream" [∅]) in
  send 0 None st = (st, NotSent (StreamDisconnectedException "wss://stream")) ∧
  _message_futures (self (fst (send 0 None st))) = _message_futures (self st) ∧
  _message_id (self (fst (send 0 None st))) = _message_id (self st).
Proof.
  apply (send_never_connected "wss://stream" [∅]
           [Send 0 None; CloseBegin 4999; SendResume 0 0 None] 0 None);
    reflexivity.
Defined.

(** ** [connect] is not idempotent *)

(** C2, as amended. Every call of [connect] installs a new pending open
    gate and a newly created connection task in place of the ones an
    earlier call has stored (the earlier task is neither cancelled nor
    awaited); it leaves the socket, the connected task, the id counter, the
    pending table, the closing flag and the existing futures and tasks as
    they are, and it returns without waiting. *)
Theorem connect_installs_fresh_task st :
  connect st ≠ st ∧
  _open_future (self (connect st)) = Some (length (futures (loop st))) ∧
  _conn_task (self (connect st)) = Some (length (tasks (loop st))) ∧
  futures (loop (connect st)) = futures (loop st) ++ [Pending] ∧
  futures (loop (connect st)) !! length (futures (loop st)) = Some Pending ∧
  tasks (loop (connect st))
  = tasks (loop st) ++ [{| t_kind := TConnect; t_cancel := false |}] ∧
  _socket (self (connect st)) = _socket (self st) ∧
  _connected_task (self (connect st)) = _connected_task (self st) ∧
  _message_id (self (connect st)) = _message_id (self st) ∧
  _message_futures (self (connect st)) = _message_futures (self st) ∧
  _closing (self (connect st)) = _closing (self st) ∧
  _uri (self (connect st)) = _uri (self st) ∧
  dicts (loop (connect st)) = dicts (loop st) ∧
  delivered (loop (connect st)) = delivered (loop st) ∧
  socket_sends (loop (connect st)) = socket_sends (loop st).
Proof.
  split.
  - intros H. apply (f_equal (fun s => length (futures (loop s)))) in H.
    cbn in H. rewrite length_app in H. cbn in H. lia.
  - repeat split. cbn. apply list_lookup_middle. done.
Qed.

(** C2, refuted as stated: the second call of [connect] on a new stream
    replaces the connection task and the open gate of the first, and leaves
    two connection tasks scheduled. *)
Lemma connect_twice_differs :
  let st := connect (new_stream "wss://stream" []) in
  reachable st ∧
  is_Some (_conn_task (self st)) ∧
  connect st ≠ st ∧
  _conn_task (self st) = Some 0 ∧ _conn_task (self (connect st)) = Some 1 ∧
  _open_future (self st) = Some 0 ∧ _open_future (self (connect st)) = Some 1 ∧
  length (tasks (loop (connect st))) = 2.
Proof.
  cbn zeta. split; [apply (reach_step Connect); [apply reach_new|done]|].
  split; [by eexists|]. split; [|done].
  intros H. apply (f_equal (fun s => _conn_task (self s))) in H. done.
Qed.

(** ** [close] and its guard *)

Lemma close_ok code st :
  is_Some (_conn_task (self st)) →
  ∃ st', close code st = Ok st' ∧
         _conn_task (self st') = _conn_task (self st) ∧
         _socket (self st') = None ∧ _closing (self st') = false.
Proof.
  intros [t Ht]. unfold close, close_begin. unfold_res. rewrite Ht.
  by eexists.
Qed.

Lemma conn_task_exec o st :
  is_Some (_conn_task (self st)) → is_Some (_conn_task (self (exec o st))).
Proof.
  intros Ht. destruct o; cbn [exec]; try done.
  - unfold _connect_opened, _set_socket. unfold_res.
    destruct (_open_future (self st)); [|done].
    unfold set_result, resolve.
    by destruct (futures (loop st) !! _) as [[]|].
  - destruct (_handle_message msg st) as [st'|] eqn:H; [|done]. cbn [keep].
    unfold _handle_message in H. unfold_res.
    destruct (contains msg STREAM_KEY_ID) as [[]|]; cbn [negb] in H;
      [|by simplify_eq|done].
    destruct (subscript msg STREAM_KEY_ID) as [v|]; [|done].
    destruct (table_key v) as [k|]; [|done].
    destruct (option_bind _ _ _ k) as [[m g]|]; [|by simplify_eq].
    destruct (settle msg g (loop st)); by simplify_eq.
  - unfold _reconnect. by destruct (_connected_task (self st)).
  - unfold send. destruct (_socket (self st)); [done|].
    by destruct (_open_future (self st)).
  - unfold send_resume.
    by destruct (futures (loop st) !! f) as [[|[]|]|].
  - unfold close_begin. destruct Ht as [t Ht]. rewrite Ht. cbn.
    rewrite Ht. by eexists.
Qed.

Lemma conn_task_run ops st :
  is_Some (_conn_task (self st)) → is_Some (_conn_task (self (run ops st))).
Proof. revert st. induction ops; cbn; eauto using conn_task_exec. Qed.

(** C3, as amended. [close] raises [StreamDisconnectedException] exactly
    when the connection task is unset, and it is unset on every stream on
    which [connect] was never called. A completed [close] resets the socket
    and the closing flag and keeps the connection task: the guard of every
    later [close] passes, and that [close] completes as well. No operation
    unsets the connection task: once [connect] has been called, no [close]
    raises. *)
Theorem close_raises_iff_no_conn_task code st :
  (_conn_task (self st) = None ↔
   close code st = Raise (StreamDisconnectedException (_uri (self st)))) ∧
  (∀ uri ds ops,
     st = run ops (new_stream uri ds) →
     forallb (fun o => negb (is_connect o)) ops = true →
     admissible ops (new_stream uri ds) = true →
     close code st = Raise (StreamDisconnectedException uri)) ∧
  (∀ st1, close code st = Ok st1 →
     _socket (self st1) = None ∧ _closing (self st1) = false ∧
     _conn_task (self st1) = _conn_task (self st) ∧
     ∀ code', ∃ st2, close code' st1 = Ok st2) ∧
  (is_Some (_conn_task (self st)) →
   ∀ ops code', ∃ st', close code' (run ops st) = Ok st').
Proof.
  split; [|split; [|split]]; cycle 3.
  { intros Ht ops code'.
    destruct (close_ok code' (run ops st)) as (st' & ? & _);
      [by apply conn_task_run|by eexists]. }
  - unfold close, close_begin. unfold_res.
    destruct (_conn_task (self st)); split; done.
  - intros uri ds ops -> Hc Ha. by rewrite (never_connected_run ops uri ds Hc Ha).
  - intros st1 H.
    destruct (_conn_task (self st)) as [t|] eqn:Ht.
    + destruct (close_ok code st) as (st' & H' & Ht' & Hs & Hc); [by rewrite Ht|].
      rewrite Ht in Ht'. assert (st' = st1) as -> by congruence.
      repeat split; try done. intros code'.
      destruct (close_ok code' st1) as (st2 & ? & _); [by rewrite Ht'|by eexists].
    + unfold close, close_begin in H. unfold_res. by rewrite Ht in H.
Qed.

Lemma close_raises_iff_no_conn_task_witness :
  close 4999 (new_stream "wss://stream" [])
  = Raise (StreamDisconnectedException "wss://stream") ∧
  ∃ st2, close 1000 (close_end (keep opened (close_begin 4999 opened)))
         = Ok st2.
Proof.
  split.
  - apply (proj1 (close_raises_iff_no_conn_task 4999
                    (new_stream "wss://stream" []))). reflexivity.
  - apply (proj1 (proj2 (proj2 (close_raises_iff_no_conn_task 4999 opened)))
             (close_end (keep opened (close_begin 4999 opened)))).
    reflexivity.
Defined.

(** C3, refuted as stated: after a connection was opened and closed, the
    second [close] does not raise; it completes like the first. *)
Lemma close_twice_completes :
  let st := exec (Opened 7) (connect (new_stream "wss://stream" [])) in
  reachable st ∧
  ∃ st1 st2,
    close 4999 st = Ok st1 ∧
    _socket (self st1) = None ∧ _closing (self st1) = false ∧
    close 4999 st1 = Ok st2 ∧
    close 4999 st1 ≠ Raise (StreamDisconnectedException "wss://stream").
Proof.
  cbn zeta. split.
  - apply (reach_step (Opened 7)); [|done].
    apply (reach_step Connect); [apply reach_new|done].
  - do 2 eexists. repeat split; try reflexivity. done.
Qed.

(** ** The pending table and the results that callers have received *)

(** C8, as amended. In every state that a stream reaches, every future that
    the pending table holds is still pending: the table has no entry for a
    call that the handler has resolved. When the handler settles a future it
    removes the entry in the same uninterrupted step, and no later operation
    puts that future back. *)
Theorem pending_table_holds_pending st :
  reachable st →
  (∀ i f, _message_futures (self st) !! i = Some f →
          futures (loop st) !! f = Some Pending) ∧
  (∀ msg st' g,
     _handle_message msg st = Ok st' →
     futures (loop st') !! g ≠ futures (loop st) !! g →
     ∃ i, frame_id msg = Some i ∧
          _message_futures (self st) !! i = Some g ∧
          _message_futures (self st') !! i = None ∧
          ∀ ops j, _message_futures (self (run ops st')) !! j ≠ Some g).
Proof.
  intros Hwf%reachable_wf. split; [by apply wf_pending|].
  intros msg st' g H Hne.
  pose proof (handle_message_settles _ _ _ g Hwf H Hne) as Hg.
  destruct (frame_id msg) as [i|] eqn:Hid; [|done]. cbn in Hg.
  exists i. split; [done|]. split; [done|].
  pose proof (handle_message_matched st msg i g Hg
                (wf_pending _ Hwf _ _ Hg) Hid) as M.
  destruct (reply_of msg) as [x|]; [|destruct M; congruence].
  pose proof (wf_handle_message _ _ _ Hwf H) as Hwf'.
  rewrite M in H. injection H as <-.
  pose proof (retired_after_frame st i g x Hwf Hg) as Hret.
  split; [by destruct Hret|]. intros ops.
  by destruct (retired_run ops i g _ Hwf' Hret) as [[_ _ _ ? _] _].
Qed.

Lemma pending_table_holds_pending_witness :
  reachable (fst (send 0 None opened)) ∧
  _message_futures (self (fst (send 0 None opened))) !! 0%Z = Some 1 ∧
  futures (loop (fst (send 0 None opened))) !! 1 = Some Pending.
Proof.
  assert (reachable (fst (send 0 None opened))) as Hr
    by (apply (admissible_reachable [Connect; Opened 7; Send 0 None]);
        [apply reach_new|reflexivity]).
  split; [exact Hr|]. split; [reflexivity|].
  apply (proj1 (pending_table_holds_pending _ Hr) 0%Z 1). reflexivity.
Defined.

(** C8, refuted as stated: on an open stream, a [send] whose
    [socket.send] raises [ConnectionClosed] has raised to its caller, and the
    entry that it has stored under its id stays in the table. *)
Lemma send_write_failure_keeps_entry :
  let st := exec (Opened 7) (connect (new_stream "wss://stream" [∅])) in
  let r := send 0 (Some ConnectionClosed) st in
  reachable st ∧
  snd r = WriteFailed 0 1 ConnectionClosed ∧
  raised_to_caller (snd r) = Some ConnectionClosed ∧
  stamped_id (snd r) = Some 0%Z ∧
  _message_futures (self (fst r)) !! 0%Z = Some 1.
Proof.
  cbn zeta. split; [|done].
  apply (reach_step (Opened 7)); [|done].
  apply (reach_step Connect); [apply reach_new|done].
Qed.

(** ** The argument of [send] *)

Lemma send_stamp_dicts msg sock wr st d :
  dicts (loop st) !! msg = Some d →
  let st' := fst (send_stamp msg sock wr st) in
  let d' := <[STREAM_KEY_ID := JInt (_message_id (self st))]> d in
  dicts (loop st') !! msg = Some d' ∧
  (∀ r, r ≠ msg → dicts (loop st') !! r = dicts (loop st) !! r) ∧
  socket_sends (loop st') = socket_sends (loop st) ++ [(sock, d')].
Proof.
  intros Hd. cbn. rewrite list_lookup_alter_eq, Hd. cbn.
  split; [done|]. split; [|done].
  intros r Hr. by rewrite list_lookup_alter_ne.
Qed.

(** C10. A [send] that assigns an id writes it into the dict that the
    caller has passed, under the key "id" and over any value the key had,
    before the dict is serialised for the socket; no other key of that dict
    and no other dict is changed. *)
Theorem send_stamps_argument st msg wr d st' o i :
  dicts (loop st) !! msg = Some d →
  send msg wr st = (st', o) ∨ (∃ g, send_resume g msg wr st = (st', o)) →
  stamped_id o = Some i →
  i = _message_id (self st) ∧
  (∃ d', dicts (loop st') !! msg = Some d' ∧
         d' = <["id" := JInt i]> d ∧
         d' !! "id" = Some (JInt i) ∧
         (∀ k, k ≠ "id" → d' !! k = d !! k) ∧
         ∃ sock, socket_sends (loop st')
                 = socket_sends (loop st) ++ [(sock, d')]) ∧
  (∀ r, r ≠ msg → dicts (loop st') !! r = dicts (loop st) !! r).
Proof.
  intros Hd Hs Ho.
  assert (∃ sock, send_stamp msg sock wr st = (st', o)) as [sock H].
  { destruct Hs as [H|[g H]].
    - unfold send in H. destruct (_socket (self st)) as [sock|]; [by eauto|].
      destruct (_open_future (self st)); by simplify_eq.
    - unfold send_resume in H.
      destruct (futures (loop st) !! g) as [[|[|sock]|]|];
        try by simplify_eq. by eauto. }
  destruct (send_stamp_outcome msg sock wr st) as [Hi _].
  destruct (send_stamp_dicts msg sock wr st d Hd) as (Hd' & Hother & Hsent).
  rewrite H in Hi, Hd', Hother, Hsent. cbn [fst snd] in *.
  assert (i = _message_id (self st)) as -> by congruence.
  split; [done|]. split; [|done].
  eexists. split; [exact Hd'|]. split; [done|].
  split; [apply lookup_insert_eq|]. split; [|by eauto].
  intros k Hk. by rewrite lookup_insert_ne.
Qed.

Lemma send_stamps_argument_witness :
  dicts (loop (fst (send 0 None opened))) !! 0
  = Some (<["id" := JInt 0]> subscribe) ∧
  dicts (loop (fst (send 0 None opened))) !! 1 = Some ∅.
Proof.
  destruct (send_stamps_argument opened 0 None subscribe
              (fst (send 0 None opened)) (AwaitReply 0 1) 0)
    as (_ & (d' & Hd & -> & _) & Hother);
    [reflexivity|left; vm_compute; reflexivity|reflexivity|].
  split; [exact Hd|]. rewrite Hother by discriminate. reflexivity.
Defined.

(** ** Fan-out to the handlers *)

Section dispatch.
Variable payload : json.
#[local] Abbreviation sync_return := (sync_return payload).

Lemma dispatch_loop_prefix before rest coro ran :
  sync_return before →
  dispatch_loop (before ++ rest) payload coro ran
  = dispatch_loop rest payload
      (coro ++ filter is_async before)
      (ran ++ map h_id (filter is_sync before)).
Proof.
  revert coro ran. induction before as [|h before IH]; intros coro ran Hs.
  { cbn. by rewrite !app_nil_r. }
  assert (sync_return before) as Hs' by (intros ???; apply Hs; set_solver).
  cbn [app dispatch_loop]. destruct (h_coroutine h) eqn:Eh.
  - rewrite IH by done. rewrite filter_cons_True by done.
    rewrite filter_cons_False by (unfold is_sync; congruence).
    by rewrite <- app_assoc.
  - rewrite (Hs h) by (done || set_solver). rewrite IH by done.
    rewrite filter_cons_False by (unfold is_async; congruence).
    rewrite filter_cons_True by done. cbn [map]. by rewrite <- app_assoc.
Qed.

Lemma sync_async_perm (hs : list handler) :
  map h_id (filter is_sync hs) ++ map h_id (filter is_async hs)
  ≡ₚ map h_id hs.
Proof.
  induction hs as [|h hs IH]; [done|]. destruct (h_coroutine h) eqn:Eh.
  - rewrite filter_cons_False by (unfold is_sync; congruence).
    rewrite filter_cons_True by done. cbn [map].
    by rewrite <- Permutation_middle, IH.
  - rewrite filter_cons_True by done.
    rewrite filter_cons_False by (unfold is_async; congruence).
    cbn [map app]. by rewrite IH.
Qed.

Lemma omap_all_None {A B} (g : A → option B) (l : list A) :
  (∀ x, x ∈ l → g x = None) → omap g l = [].
Proof.
  induction l as [|x l IH]; intros H; [done|]. cbn.
  rewrite (H x) by set_solver. apply IH. intros ??. apply H. set_solver.
Qed.

(** When its synchronous handlers return, [dispatch] runs every handler
    once, and raises what [gather] raises. *)
Lemma dispatch_sync_return hs :
  sync_return hs →
  fst (dispatch hs payload) ≡ₚ map h_id hs ∧
  snd (dispatch hs payload)
  = head (omap (fun h => h_receive h payload) (filter is_async hs)).
Proof.
  intros Hs. unfold dispatch.
  pose proof (dispatch_loop_prefix hs [] [] [] Hs) as E.
  rewrite app_nil_r in E. rewrite E. cbn [dispatch_loop app].
  case_bool_decide as Hlen; cbn [gather fst snd].
  - split; [apply sync_async_perm|done].
  - assert (filter is_async hs = []) as Hnil
      by (destruct (filter is_async hs); [done|cbn in Hlen; lia]).
    rewrite <- (sync_async_perm hs), Hnil. cbn. by rewrite app_nil_r.
Qed.

(** C4, as amended. When no handler raises on the payload, [dispatch] runs
    every handler once and raises nothing. An exception of a handler is not
    caught: a synchronous handler that raises ends the loop, its exception
    is raised to the caller of [dispatch], and neither the handlers after it
    nor any asynchronous handler has run; when the synchronous handlers
    return and an asynchronous one raises, every handler has run and
    [dispatch] raises to its caller. *)
Theorem dispatch_raises_handler_failure (handlers : list handler) :
  ((∀ h, h ∈ handlers → h_receive h payload = None) →
   fst (dispatch handlers payload) ≡ₚ map h_id handlers ∧
   snd (dispatch handlers payload) = None) ∧
  (∀ before h after e,
     handlers = before ++ h :: after →
     sync_return before → is_sync h → h_receive h payload = Some e →
     dispatch handlers payload
     = (map h_id (filter is_sync before) ++ [h_id h], Some e)) ∧
  (∀ h e,
     sync_return handlers →
     h ∈ handlers → is_async h → h_receive h payload = Some e →
     fst (dispatch handlers payload) ≡ₚ map h_id handlers ∧
     is_Some (snd (dispatch handlers payload))).
Proof.
  split; [|split].
  - intros Hall.
    destruct (dispatch_sync_return handlers) as [Hp Hr];
      [by intros h Hh _; apply Hall|].
    split; [done|]. rewrite Hr.
    rewrite omap_all_None; [done|].
    intros h [_ Hh]%list_elem_of_filter. by apply Hall.
  - intros before h after e -> Hs Hh He. unfold dispatch.
    rewrite dispatch_loop_prefix by done. cbn [dispatch_loop app].
    unfold is_sync in Hh. by rewrite Hh, He.
  - intros h e Hs Hin Hh He.
    destruct (dispatch_sync_return handlers Hs) as [Hp Hr].
    split; [done|]. rewrite Hr.
    assert (h ∈ filter is_async handlers) as Hf
      by by apply list_elem_of_filter.
    assert (e ∈ omap (fun h => h_receive h payload) (filter is_async handlers))
      as Ho by (apply list_elem_of_omap; eauto).
    destruct (omap _ _); [by apply not_elem_of_nil in Ho|by eexists].
Qed.

End dispatch.

Lemma dispatch_raises_handler_failure_witness :
  let good := {| h_id := 1; h_coroutine := false;
                 h_receive := fun _ => None |} in
  let lazy := {| h_id := 2; h_coroutine := true;
                 h_receive := fun _ => None |} in
  let bad := {| h_id := 0; h_coroutine := false;
                h_receive := fun _ => Some (KeyError "E") |} in
  dispatch [good; lazy; bad; good] JNull = ([1; 0], Some (KeyError "E")).
Proof.
  cbn zeta.
  apply (proj1 (proj2 (dispatch_raises_handler_failure JNull _))
           [ {| h_id := 1; h_coroutine := false; h_receive := fun _ => None |};
             {| h_id := 2; h_coroutine := true; h_receive := fun _ => None |} ]
           {| h_id := 0; h_coroutine := false;
              h_receive := fun _ => Some (KeyError "E") |}
           [ {| h_id := 1; h_coroutine := false; h_receive := fun _ => None |} ]
           (KeyError "E")); try reflexivity.
  intros h Hh Hs.
  apply list_elem_of_In in Hh. destruct Hh as [<-|[<-|[]]]; [reflexivity|].
  discriminate Hs.
Defined.

(** C4, refuted as stated: with a synchronous handler that raises, the
    exception reaches the caller of [dispatch] in either order of
    iteration, and the handler after the failing one is not run. *)
Lemma dispatch_poisoned_by_failure :
  let bad := {| h_id := 0; h_coroutine := false;
                h_receive := fun _ => Some (KeyError "E") |} in
  let good := {| h_id := 1; h_coroutine := false;
                 h_receive := fun _ => None |} in
  dispatch [bad; good] JNull = ([0], Some (KeyError "E")) ∧
  dispatch [good; bad] JNull = ([1; 0], Some (KeyError "E")).
Proof. done. Qed.

(** ** The scenarios of the specification, run *)

(** The request gets the id 0; the frame [{"id": 0, "result": null}]
    resolves it to [null]; the ticker frame, which has no id, goes to the
    [on_message] callback. *)
Example scenario_subscribe :
  let st := run [Send 0 None; Frame (reply 0 JNull); Frame ticker] opened in
  dicts (loop st) !! 0 = Some (<["id" := JInt 0]> subscribe) ∧
  futures (loop st) !! 1 = Some (Done (VJson JNull)) ∧
  _message_futures (self st) = ∅ ∧
  delivered (loop st) = [ticker].
Proof. vm_compute. done. Qed.

(** An error frame fails the call with the code and the message of the
    server. *)
Example scenario_error :
  let st := run [Send 0 None; Frame (failure 0 (-1) "bad param")] opened in
  futures (loop st) !! 1
  = Some (Failed (StreamSubscribeException (JInt (-1)) (JStr "bad param"))) ∧
  _message_futures (self st) = ∅.
Proof. vm_compute. done. Qed.

(** Two requests, answered in the opposite order. *)
Example scenario_out_of_order :
  let st := run [Send 0 None; Send 1 None;
                 Frame (reply 1 (JStr "b")); Frame (reply 0 (JStr "a"))]
              opened in
  futures (loop st) !! 1 = Some (Done (VJson (JStr "a"))) ∧
  futures (loop st) !! 2 = Some (Done (VJson (JStr "b"))).
Proof. vm_compute. done. Qed.

(** The ids go on across a reconnection and across a close followed by a
    new connection. *)
Example scenario_ids_across_reconnect :
  ids_assigned
    [Send 0 None; Reconnect; Opened 8; Send 0 None;
     CloseBegin 4999; CloseEnd; Connect; Opened 9; Send 1 None]
    opened
  = [0; 1; 2]%Z.
Proof. reflexivity. Qed.

(** During a reconnection the stream still holds the socket that has
    dropped: a [send] goes to it at once, and the error of the write is
    raised to the caller. *)
Example scenario_send_while_reconnecting :
  let st := run [Reconnect] opened in
  _socket (self st) = Some 7 ∧ _open_future (self st) = Some 1 ∧
  snd (send 0 (Some ConnectionClosed) st) = WriteFailed 0 2 ConnectionClosed.
Proof. vm_compute. done. Qed.

(** After a close, [send] raises as on a stream that never connected. *)
Example scenario_send_after_close :
  let st := run [CloseBegin 4999; CloseEnd] opened in
  snd (send 0 None st) = NotSent (StreamDisconnectedException "wss://stream").
Proof. reflexivity. Qed.

(** A coroutine handler that raises: the handlers have all run, the plain
    function first, and [dispatch] raises. *)
Example scenario_async_failure :
  dispatch
    [ {| h_id := 2; h_coroutine := true;
         h_receive := fun _ => Some (KeyError "E") |};
      {| h_id := 1; h_coroutine := false; h_receive := fun _ => None |} ]
    JNull
  = ([1; 2], Some (KeyError "E")).
Proof. reflexivity. Qed.

(** * Further properties of the stream *)

(** ** Futures are settled once *)

Lemma unheld_exec o f st :
  wf st → unheld f st →
  unheld f (exec o st) ∧
  futures (loop (exec o st)) !! f = futures (loop st) !! f.
Proof.
  intros Hwf [Hal Hun Hop].
  destruct (footprint_exec o st Hwf) as [_ Hl He Ho Hf _].
  split; [split|].
  - lia.
  - intros j Hj. destruct (He _ _ Hj) as [?|[_ ->]]; [by eapply Hun|lia].
  - intros Hj. destruct (Ho _ Hj) as [?| ->]; [done|lia].
  - destruct (Hf f Hal) as [?|[[j Hj]|?]]; [done| |done]. by destruct (Hun j).
Qed.

Lemma unheld_run ops f st :
  wf st → unheld f st →
  unheld f (run ops st) ∧
  futures (loop (run ops st)) !! f = futures (loop st) !! f.
Proof.
  revert st. induction ops as [|o ops IH]; intros st Hwf Hu; [done|].
  cbn [run]. destruct (unheld_exec o f st Hwf Hu) as [Hu' Heq].
  destruct (IH _ (wf_exec o st Hwf) Hu') as [? ?]. split; congruence.
Qed.

Lemma settled_unheld st f x :
  wf st → futures (loop st) !! f = Some x → x ≠ Pending → unheld f st.
Proof.
  intros [_ Hp _ Hopen] Hf Hx. split.
  - eauto using lookup_lt_Some.
  - intros j Hj. apply Hp in Hj. congruence.
  - intros Ho. destruct (Hopen f Ho). congruence.
Qed.

(** X1. A future that has a result or an exception keeps it: no run of
    operations settles it a second time or makes it pending again. *)
Theorem settled_future_stays st f x ops :
  reachable st →
  futures (loop st) !! f = Some x → x ≠ Pending →
  futures (loop (run ops st)) !! f = Some x.
Proof.
  intros Hwf%reachable_wf Hf Hx.
  destruct (unheld_run ops f st Hwf (settled_unheld st f x Hwf Hf Hx))
    as [_ ->]. done.
Qed.

Lemma settled_future_stays_witness :
  futures (loop (run [Frame (reply 0 (JStr "again")); Send 1 None;
                      Reconnect; Opened 8; Frame (failure 0 1 "late")]
                   (run [Send 0 None; Frame (reply 0 JNull)] opened))) !! 1
  = Some (Done (VJson JNull)).
Proof.
  apply (settled_future_stays
           (run [Send 0 None; Frame (reply 0 JNull)] opened) 1
           (Done (VJson JNull))).
  - apply (admissible_reachable
             [Connect; Opened 7; Send 0 None; Frame (reply 0 JNull)]);
      [apply reach_new|reflexivity].
  - reflexivity.
  - discriminate.
Defined.

(** ** The open gate *)

Lemma connect_opened_ok sock st :
  wf st →
  ∃ st1, _connect_opened sock st = Ok st1 ∧
         _socket (self st1) = Some sock ∧
         _open_future (self st1) = None ∧
         _message_futures (self st1) = _message_futures (self st) ∧
         _message_id (self st1) = _message_id (self st) ∧
         (∀ f, _open_future (self st) = Some f →
               futures (loop st1) !! f = Some (Done (VSocket sock))) ∧
         (∀ g, _open_future (self st) ≠ Some g →
               futures (loop st1) !! g = futures (loop st) !! g).
Proof.
  intros [_ _ _ Hopen]. unfold _connect_opened, _set_socket. unfold_res.
  destruct (_open_future (self st)) as [f|] eqn:Ef.
  - destruct (Hopen f eq_refl) as [Hf _].
    unfold set_result. rewrite (resolve_pending _ _ _ Hf).
    eexists. split; [done|]. cbn. repeat split; try done.
    + intros g [= <-]. apply list_lookup_insert_eq. eauto using lookup_lt_Some.
    + intros g Hg. rewrite list_lookup_insert_ne; [done|]. congruence.
  - eexists. split; [done|]. cbn. repeat split; try done.
Qed.

(** X2. On every state that a stream reaches, publishing an opened socket
    does not raise: the socket is stored, the gate is cleared and its future
    is resolved with the socket; the pending table, the id counter and every
    other future are as before. *)
Theorem socket_opening_publishes sock st :
  reachable st →
  ∃ st1, _connect_opened sock st = Ok st1 ∧
         _socket (self st1) = Some sock ∧
         _open_future (self st1) = None ∧
         _message_futures (self st1) = _message_futures (self st) ∧
         _message_id (self st1) = _message_id (self st) ∧
         (∀ f, _open_future (self st) = Some f →
               futures (loop st1) !! f = Some (Done (VSocket sock))) ∧
         (∀ g, _open_future (self st) ≠ Some g →
               futures (loop st1) !! g = futures (loop st) !! g).
Proof. intros Hwf%reachable_wf. by apply connect_opened_ok. Qed.

Lemma socket_opening_publishes_witness :
  ∃ st1, _connect_opened 9 (run [Send 0 None; Reconnect] opened) = Ok st1 ∧
         _socket (self st1) = Some 9 ∧
         _open_future (self st1) = None ∧
         _message_futures (self st1)
         = _message_futures (self (run [Send 0 None; Reconnect] opened)) ∧
         _message_id (self st1)
         = _message_id (self (run [Send 0 None; Reconnect] opened)) ∧
         (∀ f, _open_future (self (run [Send 0 None; Reconnect] opened))
               = Some f →
               futures (loop st1) !! f = Some (Done (VSocket 9))) ∧
         (∀ g, _open_future (self (run [Send 0 None; Reconnect] opened))
               ≠ Some g →
               futures (loop st1) !! g
               = futures (loop (run [Send 0 None; Reconnect] opened)) !! g).
Proof.
  apply (socket_opening_publishes 9 (run [Send 0 None; Reconnect] opened)).
  apply (admissible_reachable [Connect; Opened 7; Send 0 None; Reconnect]);
    [apply reach_new|reflexivity].
Defined.

Lemma send_resume_done f sock msg wr st :
  futures (loop st) !! f = Some (Done (VSocket sock)) →
  send_resume f msg wr st = send_stamp msg sock wr st.
Proof. unfold send_resume. by intros ->. Qed.

(** X3. A [send] called while the socket is not open and the gate is set is
    suspended on the gate. Once the socket has opened, and whatever runs in
    between, the woken call stamps the id that the counter holds at that
    moment and hands its frame to the socket that the gate was resolved
    with. *)
Theorem waiting_send_resumes st f msg wr :
  reachable st →
  _socket (self st) = None → _open_future (self st) = Some f →
  send msg wr st = (st, AwaitOpen f) ∧
  ∀ sock st1, _connect_opened sock st = Ok st1 →
    ∀ ops msg' wr',
      stamped_id (snd (send_resume f msg' wr' (run ops st1)))
      = Some (_message_id (self (run ops st1))) ∧
      ∃ d, socket_sends (loop (fst (send_resume f msg' wr' (run ops st1))))
           = socket_sends (loop (run ops st1)) ++ [(sock, d)].
Proof.
  intros Hwf%reachable_wf Hs Ho. split.
  { unfold send. by rewrite Hs, Ho. }
  intros sock st1 H1 ops msg' wr'.
  destruct (connect_opened_ok sock st Hwf)
    as (st1' & H1' & _ & Hgate & Htab & _ & Hf & _).
  assert (st1' = st1) as -> by congruence.
  pose proof (wf_connect_opened _ _ _ Hwf H1) as Hwf1.
  specialize (Hf f Ho).
  assert (unheld f st1) as Hu.
  { split.
    - eauto using lookup_lt_Some.
    - rewrite Htab. by apply (wf_open _ Hwf f Ho).
    - by rewrite Hgate. }
  destruct (unheld_run ops f st1 Hwf1 Hu) as [_ Heq].
  rewrite (send_resume_done f sock) by congruence.
  split; [by destruct wr'|]. by eexists.
Qed.

Lemma waiting_send_resumes_witness :
  send 0 None (connect (new_stream "wss://stream" [subscribe]))
  = (connect (new_stream "wss://stream" [subscribe]), AwaitOpen 0) ∧
  stamped_id (snd (send_resume 0 0 None opened)) = Some 0%Z.
Proof.
  destruct (waiting_send_resumes
              (connect (new_stream "wss://stream" [subscribe; ∅])) 0 0 None)
    as [_ H].
  - apply (admissible_reachable [Connect]); [apply reach_new|reflexivity].
  - reflexivity.
  - reflexivity.
  - split; [reflexivity|].
    apply (H 7 opened eq_refl [] 0 None).
Defined.

(** X4. When the gate is replaced before it was resolved, by [_reconnect]
    or by a second [connect], the future of the old gate stays pending for
    ever: a [send] suspended on it is never woken, whatever sockets open
    later. *)
Theorem replaced_gate_strands_waiter st f st' ops msg wr :
  reachable st →
  _open_future (self st) = Some f →
  st' = _reconnect st ∨ st' = connect st →
  futures (loop (run ops st')) !! f = Some Pending ∧
  send_resume f msg wr (run ops st') = (run ops st', AwaitOpen f).
Proof.
  intros Hwf%reachable_wf Ho Hst'.
  destruct (wf_open _ Hwf f Ho) as [Hf Hnot].
  assert (wf st' ∧ unheld f st' ∧ futures (loop st') !! f = Some Pending)
    as (Hwf' & Hu & Hf').
  { pose proof (lookup_lt_Some _ _ _ Hf) as Hlt.
    destruct Hst' as [-> | ->].
    - split; [by apply wf_reconnect|]. unfold _reconnect.
      destruct (_connected_task (self st)); cbn.
      + split; [split; cbn|].
        * rewrite length_app. lia.
        * done.
        * intros [= <-]. lia.
        * by rewrite lookup_app_l.
      + split; [split; cbn|].
        * rewrite length_app. lia.
        * done.
        * intros [= <-]. lia.
        * by rewrite lookup_app_l.
    - split; [by apply wf_connect|]. cbn. split; [split; cbn|].
      + rewrite length_app. lia.
      + done.
      + intros [= <-]. lia.
      + by rewrite lookup_app_l. }
  destruct (unheld_run ops f st' Hwf' Hu) as [_ Heq].
  rewrite Hf' in Heq. split; [done|]. unfold send_resume. by rewrite Heq.
Qed.

Lemma replaced_gate_strands_waiter_witness :
  futures (loop (run [Opened 8; Send 0 None]
                   (_reconnect (connect (new_stream "wss://stream" [∅])))))
    !! 0 = Some Pending ∧
  send_resume 0 0 None
    (run [Opened 8; Send 0 None]
       (_reconnect (connect (new_stream "wss://stream" [∅]))))
  = (run [Opened 8; Send 0 None]
       (_reconnect (connect (new_stream "wss://stream" [∅]))),
     AwaitOpen 0).
Proof.
  apply (replaced_gate_strands_waiter
           (connect (new_stream "wss://stream" [∅])) 0).
  - apply (admissible_reachable [Connect]); [apply reach_new|reflexivity].
  - reflexivity.
  - left. reflexivity.
Defined.

(** ** What the handler leaves alone, and what it raises *)

Lemma settle_other msg f l l' :
  settle msg f l = Ok l' →
  tasks l' = tasks l ∧ dicts l' = dicts l ∧ delivered l' = delivered l ∧
  socket_sends l' = socket_sends l.
Proof.
  unfold settle. unfold_res.
  destruct (contains msg STREAM_KEY_RESULT) as [[]|]; [| |done].
  - destruct (subscript msg STREAM_KEY_RESULT); [|done].
    unfold set_result. intros [_ ->]%resolve_ok. done.
  - destruct (contains msg STREAM_KEY_ERROR) as [[]|]; [| |done].
    + destruct (subscript msg STREAM_KEY_ERROR) as [err|]; [|done].
      destruct (subscript err ERROR_KEY_CODE); [|done].
      destruct (subscript err ERROR_KEY_MESSAGE); [|done].
      unfold set_exception. intros [_ ->]%resolve_ok. done.
    + by intros [= ->].
Qed.

(** The handler touches the pending table, the futures and the delivered
    events, and nothing else. *)
Lemma handle_message_other msg st st' :
  _handle_message msg st = Ok st' →
  with_message_futures (_message_futures (self st)) (self st')
  = self st ∧
  tasks (loop st') = tasks (loop st) ∧ dicts (loop st') = dicts (loop st) ∧
  socket_sends (loop st') = socket_sends (loop st) ∧
  prefix (delivered (loop st)) (delivered (loop st')).
Proof.
  unfold _handle_message. unfold_res.
  assert (with_message_futures (_message_futures (self st)) (self st)
          = self st) as Heta by by destruct (self st).
  assert (∀ st0, st0 = _emit_on_message msg st →
            with_message_futures (_message_futures (self st)) (self st0)
            = self st ∧
            tasks (loop st0) = tasks (loop st) ∧
            dicts (loop st0) = dicts (loop st) ∧
            socket_sends (loop st0) = socket_sends (loop st) ∧
            prefix (delivered (loop st)) (delivered (loop st0))) as Hemit.
  { intros st0 ->. cbn. repeat split; try done. by apply prefix_app_r. }
  destruct (contains msg STREAM_KEY_ID) as [[]|]; cbn [negb];
    [|by intros [= <-]; apply Hemit|done].
  destruct (subscript msg STREAM_KEY_ID) as [v|]; [|done].
  destruct (table_key v) as [k|]; [|done].
  destruct (option_bind _ _ _ k) as [[m g]|];
    [|by intros [= <-]; apply Hemit].
  destruct (settle msg g (loop st)) as [l|] eqn:S; [|done].
  intros [= <-]. cbn. apply settle_other in S as (-> & -> & -> & ->).
  repeat split; try done; by destruct (self st).
Qed.

Lemma handle_message_raises st msg e :
  _handle_message msg st = Raise e →
  e = TypeError ∨ e = KeyError ERROR_KEY_CODE ∨
  e = KeyError ERROR_KEY_MESSAGE ∨
  (e = InvalidStateError ∧
   ∃ i f, _message_futures (self st) !! i = Some f ∧
          futures (loop st) !! f ≠ Some Pending).
Proof.
  unfold _handle_message, settle. unfold_res.
  destruct msg as [| | |s|l|d]; cbn [contains];
    try (intros [= <-]; by left).
  - destruct (substring_of _ _); cbn [negb subscript]; [|done].
    intros [= <-]. by left.
  - destruct (existsb _ _); cbn [negb subscript]; [|done].
    intros [= <-]. by left.
  - destruct (d !! STREAM_KEY_ID) as [v|] eqn:Ev.
    2:{ rewrite bool_decide_eq_false_2 by (intros [? ?]; done). done. }
    rewrite bool_decide_eq_true_2 by eauto. cbn [negb subscript]. rewrite Ev.
    destruct (table_key v) as [k|e'] eqn:Ek.
    2:{ intros [= <-]. destruct v; cbn in Ek; simplify_eq; by left. }
    destruct k as [i|]; cbn [option_bind]; [|done].
    destruct (_message_futures (self st) !! i) as [f|] eqn:Ei;
      cbn [option_map]; [|done].
    assert (∀ x e0, resolve f x (loop st) = Raise e0 →
              e0 = InvalidStateError ∧
              futures (loop st) !! f ≠ Some Pending) as Hres.
    { intros x e0. unfold resolve.
      destruct (futures (loop st) !! f) as [[]|]; intros [= <-]; done. }
    destruct (d !! STREAM_KEY_RESULT) as [r|] eqn:Er.
    + rewrite bool_decide_eq_true_2 by eauto. unfold set_result.
      destruct (resolve f _ (loop st)) as [l'|e0] eqn:R; [done|].
      intros [= <-]. destruct (Hres _ _ R) as [-> ?]. right; right; right.
      eauto.
    + rewrite bool_decide_eq_false_2 by (intros [? ?]; done).
      destruct (d !! STREAM_KEY_ERROR) as [err|] eqn:Ee.
      2:{ rewrite bool_decide_eq_false_2 by (intros [? ?]; done). done. }
      rewrite bool_decide_eq_true_2 by eauto.
      destruct err as [| | | | |e1]; cbn [subscript];
        try (intros [= <-]; by left).
      destruct (e1 !! ERROR_KEY_CODE) as [c|];
        [|intros [= <-]; right; by left].
      destruct (e1 !! ERROR_KEY_MESSAGE) as [m|];
        [|intros [= <-]; right; right; by left].
      unfold set_exception.
      destruct (resolve f _ (loop st)) as [l'|e0] eqn:R; [done|].
      intros [= <-]. destruct (Hres _ _ R) as [-> ?]. right; right; right.
      eauto.
Qed.

(** X5. On every state that a stream reaches, the only exceptions that
    leave the message handler are [TypeError] (a frame that is not a JSON
    object with a hashable id, or an error that is not an object) and
    [KeyError] for the code or the message of an error object; in particular
    it never raises [InvalidStateError]: it never settles a future twice. *)
Theorem handler_raises_only st msg e :
  reachable st →
  _handle_message msg st = Raise e →
  e = TypeError ∨ e = KeyError "code" ∨ e = KeyError "msg".
Proof.
  intros Hwf%reachable_wf H.
  destruct (handle_message_raises st msg e H)
    as [?|[?|[?|[_ (i & f & Hi & Hf)]]]]; eauto.
  destruct Hf. by eapply wf_pending.
Qed.

Lemma handler_raises_only_witness :
  KeyError "msg" = TypeError ∨ KeyError "msg" = KeyError "code" ∨
  KeyError "msg" = KeyError "msg".
Proof.
  apply (handler_raises_only (fst (send 0 None opened))
           (JObj {[ "id" := JInt 0;
                    "error" := JObj {[ "code" := JInt 1 ]} ]})).
  - apply (admissible_reachable [Connect; Opened 7; Send 0 None]);
      [apply reach_new|reflexivity].
  - vm_compute. reflexivity.
Defined.

(** X6. An error frame for a pending request, read to its end: with a code
    and a message the future fails with a [StreamSubscribeException] that
    carries both as they came and the entry is removed; when the error is an
    object without a code, or without a message, the handler raises
    [KeyError] for that key; when the error is not an object it raises
    [TypeError]. *)
Theorem error_frame_outcome st d i f err :
  reachable st →
  frame_id (JObj d) = Some i →
  _message_futures (self st) !! i = Some f →
  d !! "result" = None → d !! "error" = Some err →
  _handle_message (JObj d) st =
  match err with
  | JObj e =>
      match e !! "code", e !! "msg" with
      | Some c, Some m =>
          Ok {| self := with_message_futures
                          (delete i (_message_futures (self st))) (self st);
                loop := with_futures
                          (<[f := Failed (StreamSubscribeException c m)]>
                             (futures (loop st))) (loop st) |}
      | None, _ => Raise (KeyError "code")
      | Some _, None => Raise (KeyError "msg")
      end
  | _ => Raise TypeError
  end.
Proof.
  intros Hwf%reachable_wf Hid Hi Hr He.
  pose proof (wf_pending _ Hwf _ _ Hi) as Hf.
  unfold frame_id in Hid. unfold _handle_message, settle.
  cbn [contains]. unfold_res.
  destruct (d !! STREAM_KEY_ID) as [v|] eqn:Ev; [|discriminate].
  rewrite bool_decide_eq_true_2 by eauto. cbn [negb subscript]. rewrite Ev.
  assert (table_key v = Ok (Some i)) as ->
    by (destruct v; simplify_eq; done).
  cbn [mbind option_bind]. rewrite Hi. cbn [option_map].
  change STREAM_KEY_RESULT with "result". change STREAM_KEY_ERROR with "error".
  rewrite Hr, He.
  rewrite bool_decide_eq_false_2 by (intros [? ?]; done).
  rewrite bool_decide_eq_true_2 by eauto.
  destruct err as [| | | | |e]; try done. cbn [subscript].
  change ERROR_KEY_CODE with "code". change ERROR_KEY_MESSAGE with "msg".
  destruct (e !! "code") as [c|]; [|done].
  destruct (e !! "msg") as [m|]; [|done].
  unfold set_exception. by rewrite (resolve_pending _ _ _ Hf).
Qed.

Lemma error_frame_outcome_witness :
  _handle_message
    (JObj {[ "id" := JInt 0; "error" := JObj {[ "code" := JInt 1 ]} ]})
    (fst (send 0 None opened))
  = Raise (KeyError "msg").
Proof.
  assert (reachable (fst (send 0 None opened))) as Hr
    by (apply (admissible_reachable [Connect; Opened 7; Send 0 None]);
        [apply reach_new|reflexivity]).
  rewrite (error_frame_outcome (fst (send 0 None opened))
             {[ "id" := JInt 0; "error" := JObj {[ "code" := JInt 1 ]} ]}
             0 1 (JObj {[ "code" := JInt 1 ]}) Hr);
    vm_compute; reflexivity.
Defined.

(** ** The socket between reconnections and after a close *)

Lemma socket_exec o st :
  is_close_end o = false →
  is_Some (_socket (self st)) → is_Some (_socket (self (exec o st))).
Proof.
  intros Ho Hs. destruct o; cbn [exec]; try done.
  - unfold _connect_opened, _set_socket. unfold_res.
    destruct (_open_future (self st)); [|by eexists].
    unfold set_result, resolve.
    destruct (futures (loop st) !! _) as [[]|]; cbn; by eauto.
  - destruct (_handle_message msg st) as [st'|] eqn:H; [|done]. cbn [keep].
    apply handle_message_other in H as [H _]. rewrite <- H in Hs. done.
  - unfold _reconnect. by destruct (_connected_task (self st)).
  - destruct Hs as [sock Hs]. unfold send. rewrite Hs. cbn. by rewrite Hs.
  - unfold send_resume.
    destruct (futures (loop st) !! f) as [[|[]|]|]; try done;
      destruct Hs as [s0 Hs]; cbn; by rewrite Hs.
  - unfold close_begin. destruct (_conn_task (self st)); [|done].
    destruct Hs as [s0 Hs]. cbn. by rewrite Hs.
Qed.

(** X7. Once a socket is stored, only the end of a [close] clears it: the
    stream keeps the socket through [_reconnect], so until a new socket is
    published every [send] goes on without waiting, stamps an id and hands
    its frame to the stored socket. *)
Theorem socket_kept_until_close st ops msg wr :
  is_Some (_socket (self st)) →
  forallb (fun o => negb (is_close_end o)) ops = true →
  ∃ sock d,
    _socket (self (run ops st)) = Some sock ∧
    stamped_id (snd (send msg wr (run ops st)))
    = Some (_message_id (self (run ops st))) ∧
    socket_sends (loop (fst (send msg wr (run ops st))))
    = socket_sends (loop (run ops st)) ++ [(sock, d)].
Proof.
  intros Hs Hops.
  assert (is_Some (_socket (self (run ops st)))) as [sock Hsock].
  { revert st Hs. induction ops as [|o ops IH]; intros st Hs; [done|].
    cbn in Hops. apply andb_prop in Hops as [Ho Hops].
    apply negb_true_iff in Ho. cbn [run]. apply IH; [done|].
    by apply socket_exec. }
  exists sock. unfold send. rewrite Hsock. eexists.
  split; [done|]. split; [by destruct wr|done].
Qed.

Lemma socket_kept_until_close_witness :
  ∃ sock d,
    _socket (self (run [Reconnect; CloseBegin 4999; Send 1 None] opened))
    = Some sock ∧
    stamped_id
      (snd (send 0 None (run [Reconnect; CloseBegin 4999; Send 1 None] opened)))
    = Some (_message_id
              (self (run [Reconnect; CloseBegin 4999; Send 1 None] opened))) ∧
    socket_sends
      (loop (fst (send 0 None
                    (run [Reconnect; CloseBegin 4999; Send 1 None] opened))))
    = socket_sends
        (loop (run [Reconnect; CloseBegin 4999; Send 1 None] opened))
      ++ [(sock, d)].
Proof.
  apply (socket_kept_until_close opened
           [Reconnect; CloseBegin 4999; Send 1 None] 0 None).
  - vm_compute. by eexists.
  - reflexivity.
Defined.

(** X8. After a completed [close], [send] raises
    [StreamDisconnectedException] only when the gate was clear; when a gate
    was set at the [close] (a connection or a reconnection was under way),
    [send] is suspended on that gate instead. *)
Theorem send_after_close st code st1 msg wr :
  close code st = Ok st1 →
  send msg wr st1
  = (st1,
     match _open_future (self st) with
     | Some f => AwaitOpen f
     | None => NotSent (StreamDisconnectedException (_uri (self st)))
     end) ∧
  _message_futures (self st1) = _message_futures (self st) ∧
  futures (loop st1) = futures (loop st).
Proof.
  unfold close, close_begin. unfold_res.
  destruct (_conn_task (self st)); [|done]. intros [= <-].
  unfold send. cbn.
  destruct (_socket (self st)), (_open_future (self st)); done.
Qed.

Lemma send_after_close_witness :
  send 0 None (close_end (keep opened (close_begin 4999 (_reconnect opened))))
  = (close_end (keep opened (close_begin 4999 (_reconnect opened))),
     AwaitOpen 1).
Proof.
  apply (send_after_close (_reconnect opened) 4999
           (close_end (keep opened (close_begin 4999 (_reconnect opened))))
           0 None).
  reflexivity.
Defined.

(** ** Tasks *)

Lemma lookup_cancel_kind t t' l :
  t_kind <$> tasks (cancel t l) !! t' = t_kind <$> tasks l !! t'.
Proof.
  cbn. destruct (decide (t = t')) as [-> |Hne].
  - rewrite list_lookup_alter_eq. by destruct (tasks l !! t').
  - by rewrite list_lookup_alter_ne.
Qed.

Lemma task_wf_exec o st : task_wf st → task_wf (exec o st).
Proof.
  intros [Hc Hd]. destruct o; cbn [exec].
  - split; cbn.
    + intros t [= <-]. by rewrite list_lookup_middle.
    + intros t Ht. specialize (Hd t Ht).
      rewrite lookup_app_l; [done|].
      destruct (tasks (loop st) !! t) eqn:E; [|done].
      eauto using lookup_lt_Some.
  - unfold _connect_opened, _set_socket. unfold_res.
    assert (∀ st1, tasks (loop st1) = tasks (loop st) →
              _conn_task (self st1) = _conn_task (self st) →
              task_wf
                {| self := with_connected_task
                             (Some (length (tasks (loop st1))))
                             (with_socket (Some sock) (self st1));
                   loop := with_tasks
                             (tasks (loop st1) ++
                                [{| t_kind := TEmitConnected;
                                    t_cancel := false |}]) (loop st1) |})
      as Hnew.
    { intros st1 Ht Hct. split; cbn.
      - intros t Hcc. rewrite Hct in Hcc. specialize (Hc t Hcc). rewrite Ht.
        rewrite lookup_app_l; [done|].
        destruct (tasks (loop st) !! t) eqn:E; [|done].
        eauto using lookup_lt_Some.
      - intros t [= <-]. by rewrite list_lookup_middle. }
    destruct (_open_future (self st)).
    + unfold set_result, resolve.
      destruct (futures (loop st) !! _) as [[]|]; cbn [keep]; try by split.
      by apply (Hnew {| self := with_open_future None (self st);
                        loop := with_futures _ (loop st) |}).
    + by apply (Hnew st).
  - destruct (_handle_message msg st) as [st'|] eqn:H; cbn [keep];
      [|by split].
    apply handle_message_other in H as (Hs & Ht & _).
    split; rewrite Ht.
    + intros t Hcc. apply Hc. rewrite <- Hs. done.
    + intros t Hcc. apply Hd. rewrite <- Hs. done.
  - unfold _reconnect.
    destruct (_connected_task (self st)) as [t0|] eqn:E0; split; cbn;
      try done.
    + intros t Hcc. specialize (Hc t Hcc).
      pose proof (lookup_cancel_kind t0 t (loop st)) as E. cbn in E.
      rewrite E. done.
    + intros t Ht. rewrite E0 in Ht. done.
  - unfold send. destruct (_socket (self st)); [by split|].
    destruct (_open_future (self st)); by split.
  - unfold send_resume.
    destruct (futures (loop st) !! f) as [[|[]|]|]; by split.
  - unfold close_begin. destruct (_conn_task (self st)) as [ct|] eqn:Ect;
      cbn [keep];
      [|split; [intros t Ht; rewrite Ect in Ht; done|done]].
    assert (∀ t k,
              t_kind <$> tasks (loop st) !! t = Some k →
              t_kind <$>
                tasks (cancel ct
                         match _socket (self st) with
                         | Some sock =>
                             (create_task (TSocketClose sock code) (loop st)).1
                         | None => loop st
                         end) !! t = Some k) as Hk.
    { intros t k Hk. rewrite lookup_cancel_kind.
      destruct (_socket (self st)); [|done]. cbn.
      rewrite lookup_app_l; [done|].
      destruct (tasks (loop st) !! t) eqn:E; [|done].
      eauto using lookup_lt_Some. }
    split; cbn [self loop with_closing _conn_task _connected_task].
    + intros t Hcc. apply Hk, Hc. congruence.
    + intros t Hcc. by apply Hk, Hd.
  - by split.
Qed.

Lemma task_wf_reachable st : reachable st → task_wf st.
Proof.
  induction 1; [by split|by apply task_wf_exec].
Qed.

(** X9. The first half of [close], on every state that a stream reaches:
    the connection task that the stream refers to gets its cancellation
    requested, the closing flag is set, a task that closes the socket with
    the given code is created exactly when a socket is stored, and no other
    task, no future and no entry of the pending table is touched. *)
Theorem close_begin_cancels st code st1 :
  reachable st →
  close_begin code st = Ok st1 →
  ∃ t,
    _conn_task (self st) = Some t ∧
    tasks (loop st1) !! t
    = Some {| t_kind := TConnect; t_cancel := true |} ∧
    _closing (self st1) = true ∧
    (∀ t', t' ≠ t → t' < length (tasks (loop st)) →
           tasks (loop st1) !! t' = tasks (loop st) !! t') ∧
    tasks (loop st1)
    = alter (fun x => {| t_kind := t_kind x; t_cancel := true |}) t
        (tasks (loop st)) ++
      match _socket (self st) with
      | Some sock => [{| t_kind := TSocketClose sock code;
                         t_cancel := false |}]
      | None => []
      end ∧
    futures (loop st1) = futures (loop st) ∧
    _message_futures (self st1) = _message_futures (self st).
Proof.
  intros [Hc _]%task_wf_reachable. unfold close_begin.
  destruct (_conn_task (self st)) as [t|] eqn:Et; [|done].
  intros [= <-]. exists t. specialize (Hc t eq_refl).
  destruct (tasks (loop st) !! t) as [[k c]|] eqn:Ek; [|done].
  cbn in Hc. injection Hc as ->.
  pose proof (lookup_lt_Some _ _ _ Ek) as Hlt.
  split; [done|]. destruct (_socket (self st)) as [sock|]; cbn.
  - split.
    { rewrite list_lookup_alter_eq, lookup_app_l, Ek by done. done. }
    split; [done|]. split.
    { intros t' Hne Hlt'. rewrite list_lookup_alter_ne by done.
      by rewrite lookup_app_l. }
    split; [|done].
    apply list_eq. intros j. destruct (decide (j = t)) as [-> |Hne].
    + rewrite list_lookup_alter_eq, !lookup_app_l, list_lookup_alter_eq;
        [done|by rewrite length_alter|done].
    + rewrite list_lookup_alter_ne by done.
      destruct (decide (j < length (tasks (loop st)))).
      * rewrite !lookup_app_l, list_lookup_alter_ne;
          [done|done|by rewrite length_alter|done].
      * rewrite !lookup_app_r, length_alter by (rewrite ?length_alter; lia).
        done.
  - split; [by rewrite list_lookup_alter_eq, Ek|].
    split; [done|]. split.
    { intros t' Hne _. by rewrite list_lookup_alter_ne. }
    by rewrite app_nil_r.
Qed.

Lemma close_begin_cancels_witness :
  ∃ t,
    _conn_task (self opened) = Some t ∧
    tasks (loop (keep opened (close_begin 1000 opened))) !! t
    = Some {| t_kind := TConnect; t_cancel := true |} ∧
    _closing (self (keep opened (close_begin 1000 opened))) = true ∧
    (∀ t', t' ≠ t → t' < length (tasks (loop opened)) →
           tasks (loop (keep opened (close_begin 1000 opened))) !! t'
           = tasks (loop opened) !! t') ∧
    tasks (loop (keep opened (close_begin 1000 opened)))
    = alter (fun x => {| t_kind := t_kind x; t_cancel := true |}) t
        (tasks (loop opened)) ++
      match _socket (self opened) with
      | Some sock => [{| t_kind := TSocketClose sock 1000;
                         t_cancel := false |}]
      | None => []
      end ∧
    futures (loop (keep opened (close_begin 1000 opened)))
    = futures (loop opened) ∧
    _message_futures (self (keep opened (close_begin 1000 opened)))
    = _message_futures (self opened).
Proof.
  apply (close_begin_cancels opened 1000 (keep opened (close_begin 1000 opened))).
  - apply (admissible_reachable [Connect; Opened 7]);
      [apply reach_new|reflexivity].
  - reflexivity.
Defined.

(** ** The receive loop *)

Lemma receive_loop_running its st st1 fx :
  receive_loop its st = (st1, fx, Running) → _closing (self st1) = false.
Proof.
  revert st fx. induction its as [|[during r] its IH]; intros st fx; cbn.
  - destruct (_closing (self st)) eqn:E; intros [= <- _]; done.
  - destruct (_closing (self st)); [done|].
    destruct (_receive during r st) as [[st' fx'] [e|]].
    + destruct (caught e && _closing (self st')); done.
    + destruct (receive_loop its st') as [[st2 fx2] e2] eqn:E.
      intros [= <- _ ->]. by eapply IH.
Qed.

(** The loop over a longer history of the socket goes on from where the
    loop over the shorter one stands. *)
Lemma receive_loop_app pre post st :
  receive_loop (pre ++ post) st =
  match receive_loop pre st with
  | (st1, fx1, Running) =>
      let '(st2, fx2, e) := receive_loop post st1 in (st2, fx1 ++ fx2, e)
  | r => r
  end.
Proof.
  revert st. induction pre as [|[during r] pre IH]; intros st; cbn.
  - destruct (_closing (self st)) eqn:E.
    + destruct post as [|[??] ?]; cbn; by rewrite E.
    + by destruct (receive_loop post st) as [[??]?].
  - destruct (_closing (self st)); [done|].
    destruct (_receive during r st) as [[st' fx'] [e|]].
    + by destruct (caught e && _closing (self st')).
    + rewrite IH. destruct (receive_loop pre st') as [[st1 fx1] []]; try done.
      destruct (receive_loop post st1) as [[st2 fx2] e2].
      by rewrite app_assoc.
Qed.

Lemma with_delivered_nil st :
  {| self := self st;
     loop := with_delivered (delivered (loop st) ++ []) (loop st) |} = st.
Proof. rewrite app_nil_r. by destruct st as [? []]. Qed.

(** X10. An attempt of [_connect] on a stream that is not closing, over
    iterations that are idle timeouts, texts that are not JSON and JSON
    objects without an id: the socket is published, every timeout pings the
    socket, every text that is not JSON is logged and dropped, every object
    is passed to [on_message] in the order of arrival and as it came, the
    stream and its futures are otherwise untouched, and the loop goes on. *)
Theorem quiet_iterations_keep_running sock its st :
  reachable st → _closing (self st) = false → Forall quiet its →
  ∃ st1,
    _connect_opened sock st = Ok st1 ∧
    _connect (inr sock) its st
    = ({| self := self st1;
          loop := with_delivered
                    (delivered (loop st1) ++ concat (map event_of its))
                    (loop st1) |},
       concat (map (effect_of sock) its),
       Running).
Proof.
  intros Hwf%reachable_wf Hc Hq.
  destruct (connect_opened_ok sock st Hwf) as (st1 & H1 & Hs & _).
  exists st1. split; [done|]. unfold _connect. rewrite H1.
  assert (_closing (self st1) = false) as Hc1.
  { unfold _connect_opened, _set_socket in H1. unfold_res.
    destruct (_open_future (self st)).
    - unfold set_result in H1.
      destruct (resolve _ _ (loop st)); cbn in H1; simplify_eq; cbn; done.
    - cbn in H1. simplify_eq. cbn. done. }
  clear H1 Hwf Hc. revert st1 Hs Hc1.
  induction Hq as [|[during r] its [Hd Hr] _ IH]; intros st1 Hs Hc1.
  { cbn. by rewrite Hc1, with_delivered_nil. }
  cbn in Hd, Hr. subst during. cbn [receive_loop]. rewrite Hc1.
  unfold _receive. rewrite Hs. cbn [run].
  destruct r as [[|]|text [[| | | | |d]|]|]; try done.
  - rewrite Hs, (IH st1 Hs Hc1). cbn. done.
  - unfold _handle_message. cbn [contains]. unfold_res.
    change (d !! STREAM_KEY_ID) with (d !! "id").
    change (d !! "id") with (d !! STREAM_KEY_ID). rewrite Hr.
    rewrite bool_decide_eq_false_2 by (intros [? ?]; done). cbn [negb].
    rewrite (IH (_emit_on_message (JObj d) st1)) by done. cbn.
    by rewrite <- app_assoc.
  - rewrite (IH st1 Hs Hc1). cbn. done.
Qed.

Lemma quiet_iterations_keep_running_witness :
  ∃ st1,
    _connect_opened 7 (connect (new_stream "wss://stream" [])) = Ok st1 ∧
    _connect (inr 7)
      [([], RecvTimeout None); ([], RecvText "{" None);
       ([], RecvText "ticker" (Some ticker))]
      (connect (new_stream "wss://stream" []))
    = ({| self := self st1;
          loop := with_delivered (delivered (loop st1) ++ [ticker])
                    (loop st1) |},
       [Pinged 7; LoggedInvalidJson "{"],
       Running).
Proof.
  apply (quiet_iterations_keep_running 7
           [([], RecvTimeout None); ([], RecvText "{" None);
            ([], RecvText "ticker" (Some ticker))]
           (connect (new_stream "wss://stream" []))).
  - apply (admissible_reachable [Connect]); [apply reach_new|reflexivity].
  - reflexivity.
  - repeat constructor.
Defined.

Lemma close_begin_closing code st :
  is_Some (_conn_task (self st)) →
  _closing (self (exec (CloseBegin code) st)) = true.
Proof. intros [t Ht]. cbn. unfold close_begin. by rewrite Ht. Qed.

(** X11. When the socket is lost, or the task is cancelled, while the loop
    waits in [recv], the attempt returns if the closing flag is set at that
    moment and raises the exception, for the retry, if it is not. A [close]
    that has started during the wait makes it return. *)
Theorem socket_loss_ends_attempt pre during e post st st1 fx :
  receive_loop pre st = (st1, fx, Running) →
  is_Some (_socket (self st1)) →
  caught e = true →
  receive_loop (pre ++ (during, RecvRaise e) :: post) st
  = (run during st1, fx,
     if _closing (self (run during st1)) then Returned else Raised e) ∧
  (∀ code before,
     during = before ++ [CloseBegin code] →
     is_Some (_conn_task (self (run before st1))) →
     (receive_loop (pre ++ (during, RecvRaise e) :: post) st).2 = Returned).
Proof.
  intros Hpre [sock Hs] He.
  pose proof (receive_loop_running _ _ _ _ Hpre) as Hc1.
  assert (receive_loop (pre ++ (during, RecvRaise e) :: post) st
          = (run during st1, fx,
             if _closing (self (run during st1)) then Returned
             else Raised e)) as Heq.
  { rewrite receive_loop_app, Hpre. cbn [receive_loop]. rewrite Hc1.
    unfold _receive. rewrite Hs, He. cbn. by rewrite app_nil_r. }
  split; [done|]. intros code before -> Ht. rewrite Heq. cbn [snd].
  assert (∀ a b s, run (a ++ b) s = run b (run a s)) as Happ.
  { induction a as [|o a IH]; intros b s; cbn; [done|]. apply IH. }
  rewrite Happ. cbn [run]. by rewrite close_begin_closing.
Qed.

Lemma socket_loss_ends_attempt_witness :
  receive_loop
    ([([], RecvTimeout None)]
       ++ ([CloseBegin 4999], RecvRaise CancelledError) :: [])
    opened
  = (run [CloseBegin 4999] opened, [Pinged 7], Returned) ∧
  receive_loop
    ([([], RecvTimeout None)]
       ++ ([], RecvRaise (Exn ConnectionClosed)) :: [])
    opened
  = (opened, [Pinged 7], Raised (Exn ConnectionClosed)).
Proof.
  split.
  - apply (socket_loss_ends_attempt [([], RecvTimeout None)]
             [CloseBegin 4999] CancelledError [] opened opened [Pinged 7]);
      [reflexivity|by eexists|reflexivity].
  - apply (socket_loss_ends_attempt [([], RecvTimeout None)]
             [] (Exn ConnectionClosed) [] opened opened [Pinged 7]);
      [reflexivity|by eexists|reflexivity].
Defined.

(** X12. A frame on which the message handler raises ends the attempt with
    that exception, whether or not the stream is closing: the [except]
    clause of [_connect] does not catch what the handler raises, so also
    during a [close] the exception goes on to the retry. *)
Theorem handler_failure_ends_attempt pre during text msg e post st st1 fx :
  receive_loop pre st = (st1, fx, Running) →
  is_Some (_socket (self st1)) →
  _handle_message msg (run during st1) = Raise e →
  receive_loop (pre ++ (during, RecvText text (Some msg)) :: post) st
  = (run during st1, fx, Raised (Exn e)).
Proof.
  intros Hpre [sock Hs] He.
  pose proof (receive_loop_running _ _ _ _ Hpre) as Hc1.
  rewrite receive_loop_app, Hpre. cbn [receive_loop]. rewrite Hc1.
  unfold _receive. rewrite Hs, He.
  assert (caught (Exn e) = false) as ->.
  { destruct (handle_message_raises _ _ _ He)
      as [-> |[-> |[-> |[-> _]]]]; done. }
  cbn. by rewrite app_nil_r.
Qed.

Lemma handler_failure_ends_attempt_witness :
  receive_loop
    ([] ++ ([CloseBegin 4999],
            RecvText "{id: []}" (Some (JObj {[ "id" := JArr [] ]}))) :: [])
    opened
  = (run [CloseBegin 4999] opened, [], Raised (Exn TypeError)).
Proof.
  apply (handler_failure_ends_attempt [] [CloseBegin 4999] "{id: []}"
           (JObj {[ "id" := JArr [] ]}) TypeError [] opened opened []);
    [reflexivity|by eexists|vm_compute; reflexivity].
Defined.

(** ** The tasks of the [on_connected] callback *)

Lemma one_connected_same st st' :
  tasks (loop st') = tasks (loop st) →
  _connected_task (self st') = _connected_task (self st) →
  one_connected st → one_connected st'.
Proof. intros Ht Hc H t. rewrite Ht, Hc. apply H. Qed.

Lemma one_connected_exec o st :
  match o with
  | Opened _ => _connected_task (self st) = None
  | _ => True
  end →
  one_connected st → one_connected (exec o st).
Proof.
  intros Hp H. destruct o; cbn [exec].
  - intros t. cbn. intros Ht.
    destruct (decide (t < length (tasks (loop st)))) as [Hlt|Hge].
    + rewrite lookup_app_l in Ht by done. by apply H.
    + rewrite lookup_app_r in Ht by lia.
      destruct (t - length (tasks (loop st))) as [|[|?]]; by simplify_eq.
  - destruct (_connect_opened sock st) as [st1|] eqn:E; cbn [keep]; [|done].
    unfold _connect_opened, _set_socket in E. unfold_res.
    assert (∀ l, tasks l = tasks (loop st) →
              one_connected
                {| self := with_connected_task (Some (length (tasks l)))
                             (with_socket (Some sock)
                                (with_open_future None (self st)));
                   loop := with_tasks
                             (tasks l ++ [{| t_kind := TEmitConnected;
                                             t_cancel := false |}]) l |})
      as Hnew.
    { intros l Hl t. cbn. rewrite Hl. intros Ht.
      destruct (decide (t < length (tasks (loop st)))) as [Hlt|Hge].
      - rewrite lookup_app_l in Ht by done. apply H in Ht. congruence.
      - rewrite lookup_app_r in Ht by lia.
        destruct (t - length (tasks (loop st))) as [|[|?]] eqn:Ed;
          simplify_eq. f_equal. lia. }
    destruct (_open_future (self st)) eqn:Eo.
    + unfold set_result in E.
      destruct (resolve _ _ (loop st)) as [l|] eqn:R; [|done].
      apply resolve_ok in R as [_ ->]. cbn in E. injection E as <-.
      by apply (Hnew (with_futures _ (loop st))).
    + cbn in E. injection E as <-.
      intros t Ht. specialize (Hnew (loop st) eq_refl t). cbn in *.
      by apply Hnew.
  - destruct (_handle_message msg st) as [st'|] eqn:E; cbn [keep]; [|done].
    apply handle_message_other in E as (Hs & Ht & _).
    eapply one_connected_same; [done| |done]. by rewrite <- Hs.
  - unfold _reconnect. destruct (_connected_task (self st)) as [t0|] eqn:E0.
    + intros t. cbn. intros Ht. exfalso.
      destruct (decide (t = t0)) as [-> |Hne].
      * rewrite list_lookup_alter_eq in Ht.
        destruct (tasks (loop st) !! t0); by simplify_eq.
      * rewrite list_lookup_alter_ne in Ht by done. apply H in Ht. congruence.
    + intros t. cbn. intros Ht. apply H in Ht. congruence.
  - unfold send. destruct (_socket (self st)).
    + by eapply one_connected_same.
    + by destruct (_open_future (self st)).
  - unfold send_resume.
    destruct (futures (loop st) !! f) as [[|[]|]|]; try done;
      by eapply one_connected_same.
  - unfold close_begin. destruct (_conn_task (self st)) as [ct|]; [|done].
    cbn [keep]. intros t. cbn. intros Ht. apply H.
    destruct (decide (t = ct)) as [-> |Hne].
    { rewrite list_lookup_alter_eq in Ht.
      destruct (_ !! ct); by simplify_eq. }
    rewrite list_lookup_alter_ne in Ht by done.
    destruct (_socket (self st)); [|done]. cbn in Ht.
    destruct (decide (t < length (tasks (loop st)))) as [Hlt|Hge].
    + by rewrite lookup_app_l in Ht.
    + rewrite lookup_app_r in Ht by lia.
      destruct (t - length (tasks (loop st))) as [|[|?]]; by simplify_eq.
  - by eapply one_connected_same.
Qed.

(** X13. In every run from a new stream in which a socket is opened only
    while no [on_connected] task is referred to (as between the attempts of
    one connection task, where [_reconnect] cancels and drops the task
    before the next socket opens), every [on_connected] task whose
    cancellation was not requested is the one the stream refers to: there
    is at most one. *)
Theorem one_connected_task uri ds ops t1 t2 :
  paced ops (new_stream uri ds) →
  tasks (loop (run ops (new_stream uri ds))) !! t1
  = Some {| t_kind := TEmitConnected; t_cancel := false |} →
  tasks (loop (run ops (new_stream uri ds))) !! t2
  = Some {| t_kind := TEmitConnected; t_cancel := false |} →
  t1 = t2 ∧ _connected_task (self (run ops (new_stream uri ds))) = Some t1.
Proof.
  intros Hp H1 H2.
  assert (one_connected (run ops (new_stream uri ds))) as H.
  { assert (one_connected (new_stream uri ds)) as H0 by (intros t; done).
    revert H0 Hp. generalize (new_stream uri ds). clear.
    induction ops as [|o ops IH]; intros st H0 Hp; [done|].
    destruct Hp as [Ho Hp]. cbn [run]. apply IH; [|done].
    by apply one_connected_exec. }
  apply H in H1, H2. split; [congruence|done].
Qed.

Lemma one_connected_task_witness :
  2 = 2 ∧
  _connected_task
    (self (run [Connect; Opened 7; Reconnect; Opened 8; Send 0 None]
             (new_stream "wss://stream" [∅])))
  = Some 2.
Proof.
  apply (one_connected_task "wss://stream" [∅]
           [Connect; Opened 7; Reconnect; Opened 8; Send 0 None] 2 2).
  - cbn. repeat split.
  - reflexivity.
  - reflexivity.
Defined.

(** ** The processors *)

Lemma key_cons c symbol t :
  key t (String c symbol) = String c (key t symbol).
Proof. done. Qed.

Lemma key_nil t : key t "" = String "@" t.
Proof. reflexivity. Qed.

(** X14. The key of a subscription determines the symbol and the type it
    was made of, as long as the symbols contain no "@": two keys are equal
    only when both parts are. *)
Theorem key_injective t t' symbol symbol' :
  has_at symbol = false → has_at symbol' = false →
  key t symbol = key t' symbol' →
  symbol = symbol' ∧ t = t'.
Proof.
  revert symbol'. induction symbol as [|c symbol IH]; intros [|c' symbol'].
  - rewrite !key_nil. intros _ _ [= ->]. done.
  - intros _ H'. rewrite key_cons, key_nil. intros [= <- _]. done.
  - intros H _. rewrite key_cons, key_nil. intros [= -> _]. done.
  - intros H H'. rewrite !key_cons. intros [= -> Hk].
    cbn in H, H'. apply orb_false_iff in H as [_ H].
    apply orb_false_iff in H' as [_ H'].
    destruct (IH symbol' H H' Hk) as [-> ->]. done.
Qed.

Lemma key_injective_witness :
  "btcusdt" = "btcusdt" ∧ "ticker" = "ticker".
Proof.
  apply (key_injective "ticker" "ticker" "btcusdt" "btcusdt");
    reflexivity.
Defined.

Lemma add_handler_keyed h hs : keyed hs → keyed (add_handler h hs).
Proof.
  intros Hk i h'. unfold add_handler.
  destruct (hs !! h_id h) eqn:E; [by apply Hk|].
  intros [[<- <-]|[_ ?]]%lookup_insert_Some; [done|by apply Hk].
Qed.

Lemma add_handler_lookup h hs i :
  is_Some (add_handler h hs !! i) ↔ is_Some (hs !! i) ∨ h_id h = i.
Proof.
  unfold add_handler. destruct (hs !! h_id h) eqn:E.
  - split; [by left|]. intros [?| <-]; [done|by rewrite E].
  - rewrite lookup_insert_is_Some. split.
    + intros [?|[_ ?]]; [by right|by left].
    + intros [?| ?]; [|by left].
      destruct (decide (h_id h = i)); [by left|by right].
Qed.

Lemma add_handler_value h hs i h' :
  add_handler h hs !! i = Some h' → hs !! i = Some h' ∨ h' = h.
Proof.
  unfold add_handler. destruct (hs !! h_id h) eqn:E; [by left|].
  intros [[_ <-]|[_ ?]]%lookup_insert_Some; by eauto.
Qed.

Lemma register_all_spec added hs :
  keyed hs →
  keyed (register_all added hs) ∧
  (∀ i, is_Some (register_all added hs !! i) ↔
        is_Some (hs !! i) ∨ ∃ h, h ∈ added ∧ h_id h = i) ∧
  (∀ i h, register_all added hs !! i = Some h →
          hs !! i = Some h ∨ h ∈ added).
Proof.
  revert hs. induction added as [|h0 added IH]; intros hs Hk; cbn.
  { split; [done|]. split; [|by left].
    intros i. split; [by left|]. intros [?|(h & Hh & _)]; [done|].
    by apply not_elem_of_nil in Hh. }
  destruct (IH (add_handler h0 hs) (add_handler_keyed h0 hs Hk))
    as (Hk' & Hdom & Hval).
  split; [done|]. split.
  - intros i. rewrite Hdom, add_handler_lookup. split.
    + intros [[?|?]|(h & Hh & ?)]; [by left|right|right].
      * exists h0. split; [by left|done].
      * exists h. split; [by right|done].
    + intros [?|(h & Hh & ?)]; [by left; left|].
      apply elem_of_cons in Hh as [-> |Hh]; [by left; right|].
      right. by exists h.
  - intros i h Hi. destruct (Hval i h Hi) as [Hi'| ?]; [|right; by right].
    destruct (add_handler_value _ _ _ _ Hi') as [?| ->]; [by left|].
    right. by left.
Qed.

(** X15. Handlers are registered in a set: however often and in whatever
    order [add_handler] is called, and in whatever order [dispatch] goes
    through the set, when the handlers return on the payload [dispatch] runs
    each registered handler exactly once and raises nothing. *)
Theorem registered_handlers_run_once added order payload :
  iteration_of (register_all added no_handlers) order →
  (∀ h, h ∈ added → h_receive h payload = None) →
  (dispatch order payload).2 = None ∧
  NoDup (dispatch order payload).1 ∧
  ∀ i, i ∈ (dispatch order payload).1 ↔ ∃ h, h ∈ added ∧ h_id h = i.
Proof.
  unfold iteration_of. intros Hord Hret.
  destruct (register_all_spec added no_handlers) as (Hk & Hdom & Hval);
    [intros i h; unfold no_handlers; by rewrite lookup_empty|].
  set (reg := register_all added no_handlers) in *.
  assert (∀ h, h ∈ order → h ∈ added ∧ reg !! h_id h = Some h) as Hin.
  { intros h Hh. rewrite Hord in Hh.
    apply list_elem_of_fmap in Hh as ([i h'] & -> & Hh).
    apply elem_of_map_to_list in Hh. cbn. rewrite (Hk _ _ Hh).
    split; [|done]. destruct (Hval _ _ Hh) as [He|?]; [|done].
    unfold no_handlers in He. by rewrite lookup_empty in He. }
  destruct (dispatch_sync_return payload order) as [Hperm Hsnd].
  { intros h Hh _. apply Hret. by apply Hin. }
  assert (map h_id order ≡ₚ (map_to_list reg).*1) as Hids.
  { rewrite Hord.
    change (map h_id (map_to_list reg).*2)
      with (h_id <$> (snd <$> map_to_list reg)).
    rewrite <- list_fmap_compose.
    erewrite list_fmap_ext; [done|].
    intros j [i h] Hj. cbn. apply list_elem_of_lookup_2 in Hj.
    apply elem_of_map_to_list in Hj. by apply Hk. }
  split; [|split].
  - rewrite Hsnd. rewrite omap_all_None; [done|].
    intros h [_ Hh]%list_elem_of_filter. apply Hret. by apply Hin.
  - rewrite Hperm, Hids. apply NoDup_fst_map_to_list.
  - intros i. rewrite Hperm, Hids. rewrite list_elem_of_fmap. split.
    + intros ([j h] & -> & Hj). apply elem_of_map_to_list in Hj. cbn.
      assert (is_Some (reg !! j)) as Hs by eauto.
      apply Hdom in Hs as [[? He]|?]; [|done].
      unfold no_handlers in He. by rewrite lookup_empty in He.
    + intros Hex.
      assert (is_Some (reg !! i)) as [h Hh] by (apply Hdom; by right).
      exists (i, h). split; [done|]. by apply elem_of_map_to_list.
Qed.

Lemma registered_handlers_run_once_witness :
  let a := {| h_id := 1; h_coroutine := false; h_receive := fun _ => None |} in
  let b := {| h_id := 2; h_coroutine := true; h_receive := fun _ => None |} in
  (dispatch [b; a] JNull).2 = None ∧
  NoDup (dispatch [b; a] JNull).1 ∧
  ∀ i, i ∈ (dispatch [b; a] JNull).1 ↔ ∃ h, h ∈ [a; b; a] ∧ h_id h = i.
Proof.
  cbn zeta.
  apply (registered_handlers_run_once
           [ {| h_id := 1; h_coroutine := false; h_receive := fun _ => None |};
             {| h_id := 2; h_coroutine := true; h_receive := fun _ => None |};
             {| h_id := 1; h_coroutine := false; h_receive := fun _ => None |} ]).
  - unfold iteration_of. vm_compute. reflexivity.
  - intros h Hh. apply list_elem_of_In in Hh.
    destruct Hh as [<- |[<- |[<- |[]]]]; reflexivity.
Defined.
